(** * Decodificador PRT-7: shallow embedding of [main.cpp] and its properties

    The program decodes line-delimited frames with a rotating alphabet.
    The rotor is a circular doubly linked list of 26 nodes, the decoded
    message a doubly linked list with head and tail pointers.  Both are
    embedded here as the code has them: nodes live in a store indexed by
    address, a pointer is an optional address ([None] is [nullptr]) and
    every dereference is explicit and may fail.

    C++ [int] is a 32-bit two's complement integer; it is embedded as [Z]
    with the wrap-around written out.  [char] is embedded as [ascii]; its
    promotion to [int] is the signed one of x86 Linux.  The comparisons the
    program makes (against the space, 'A'..'Z', '0'..'9', the comma and the
    minus sign) come out the same with an unsigned [char]. *)

From Stdlib Require Import ZArith Lia String Ascii List.
From stdpp Require Import base option list strings pretty.

Local Open Scope string_scope.

(** ** Machine integers and characters *)

Module Int.
Definition MIN : Z := -2147483648.
Definition MAX : Z := 2147483647.

(** Reduction of a mathematical integer to the 32-bit signed range. *)
Definition wrap (z : Z) : Z := ((z + 2147483648) mod 4294967296 - 2147483648)%Z.

Definition in_range (z : Z) : Prop := (MIN <= z <= MAX)%Z.

Definition add (a b : Z) : Z := wrap (a + b).
Definition mul (a b : Z) : Z := wrap (a * b).
Definition neg (a : Z) : Z := wrap (- a).
End Int.

(** A pointer is an address in the node store, or [nullptr]. *)
Definition ptr : Type := option nat.
Definition nullptr : ptr := None.

Definition NUL : ascii := "000"%char.

(** [endl] as it reaches the output: a line feed. *)
Definition endl : string := String "010"%char "".

(** Integer promotion of a [char]. *)
Definition char_int (c : ascii) : Z :=
  let n := Z.of_nat (nat_of_ascii c) in
  if (n <? 128)%Z then n else (n - 256)%Z.

(** [s[i]] on a NUL-terminated buffer holding [s]: the terminator is read
    at the end of the text. *)
Definition char_at (s : string) (i : nat) : ascii :=
  match String.get i s with
  | Some c => c
  | None => NUL
  end.

(** [for (int i = 0; i < n; i++) a = body(a);] for a body that may fail. *)
Fixpoint repetir {A : Type} (n : nat) (body : A -> option A) (a : A) : option A :=
  match n with
  | O => Some a
  | S n' => a' ← body a; repetir n' body a'
  end.

(** ** RotorDeMapeo *)

Module RotorDeMapeo.

Record NodoRotor : Type := mkNodoRotor {
  dato : ascii;
  siguiente : ptr;
  previo : ptr
}.

Record t : Type := mk {
  nodos : list NodoRotor;   (* the nodes allocated with [new], by address *)
  cabeza : ptr
}.

(** [new NodoRotor(d)] *)
Definition nuevo (h : list NodoRotor) (d : ascii) : list NodoRotor * ptr :=
  ((h ++ [mkNodoRotor d nullptr nullptr])%list, Some (length h)).

(** [*p] *)
Definition leer (h : list NodoRotor) (p : ptr) : option NodoRotor :=
  a ← p; h !! a.

(** [p->siguiente = q] *)
Definition asignar_siguiente (h : list NodoRotor) (p q : ptr) : option (list NodoRotor) :=
  a ← p; n ← h !! a; Some (<[a := mkNodoRotor (dato n) q (previo n)]> h).

(** [p->previo = q] *)
Definition asignar_previo (h : list NodoRotor) (p q : ptr) : option (list NodoRotor) :=
  a ← p; n ← h !! a; Some (<[a := mkNodoRotor (dato n) (siguiente n) q]> h).

Definition alfabeto : string := "ABCDEFGHIJKLMNOPQRSTUVWXYZ".
Definition longitud : nat := 26.

(** The constructor's loop [for (int i = 1; i < longitud; i++)], with [n]
    iterations left. *)
Fixpoint enlazar (n i : nat) (h : list NodoRotor) (actual : ptr)
  : option (list NodoRotor * ptr) :=
  match n with
  | O => Some (h, actual)
  | S n' =>
      let '(h1, nuevo_) := nuevo h (char_at alfabeto i) in
      h2 ← asignar_siguiente h1 actual nuevo_;
      h3 ← asignar_previo h2 nuevo_ actual;
      enlazar n' (S i) h3 nuevo_
  end.

(** [RotorDeMapeo::RotorDeMapeo()] *)
Definition crear : option t :=
  let '(h0, cabeza_) := nuevo [] (char_at alfabeto 0) in
  '(h1, actual) ← enlazar (longitud - 1) 1 h0 cabeza_;
  h2 ← asignar_siguiente h1 actual cabeza_;
  h3 ← asignar_previo h2 cabeza_ actual;
  Some (mk h3 cabeza_).

(** [cabeza = cabeza->siguiente] and [cabeza = cabeza->previo] *)
Definition paso_siguiente (h : list NodoRotor) (p : ptr) : option ptr :=
  n ← leer h p; Some (siguiente n).
Definition paso_previo (h : list NodoRotor) (p : ptr) : option ptr :=
  n ← leer h p; Some (previo n).

(** [void rotar(int N)] *)
Definition rotar (r : t) (N : Z) : option t :=
  if (N =? 0)%Z then Some r
  else if (N >? 0)%Z then
    c ← repetir (Z.to_nat N) (paso_siguiente (nodos r)) (cabeza r);
    Some (mk (nodos r) c)
  else
    let N := Int.neg N in
    c ← repetir (Z.to_nat N) (paso_previo (nodos r)) (cabeza r);
    Some (mk (nodos r) c).

(** [char getMapeo(char in)] *)
Definition getMapeo (r : t) (in_ : ascii) : option ascii :=
  if Ascii.eqb in_ " " then Some " "%char
  else if ((char_int in_ <? char_int "A") || (char_int in_ >? char_int "Z"))%Z
  then Some in_
  else
    let posicionDelCaracter := (char_int in_ - char_int "A")%Z in
    resultado ← repetir (Z.to_nat posicionDelCaracter)
                        (paso_siguiente (nodos r)) (cabeza r);
    n ← leer (nodos r) resultado;
    Some (dato n).

End RotorDeMapeo.

(** ** ListaDeCarga *)

Module ListaDeCarga.

Record NodoCarga : Type := mkNodoCarga {
  dato : ascii;
  siguiente : ptr;
  previo : ptr
}.

Record t : Type := mk {
  nodos : list NodoCarga;   (* the nodes allocated with [new], by address *)
  cabeza : ptr;
  cola : ptr
}.

(** [ListaDeCarga() : cabeza(nullptr), cola(nullptr)] *)
Definition crear : t := mk [] nullptr nullptr.

(** [new NodoCarga(d)] *)
Definition nuevo (h : list NodoCarga) (d : ascii) : list NodoCarga * ptr :=
  ((h ++ [mkNodoCarga d nullptr nullptr])%list, Some (length h)).

(** [p->siguiente = q] *)
Definition asignar_siguiente (h : list NodoCarga) (p q : ptr) : option (list NodoCarga) :=
  a ← p; n ← h !! a; Some (<[a := mkNodoCarga (dato n) q (previo n)]> h).

(** [p->previo = q] *)
Definition asignar_previo (h : list NodoCarga) (p q : ptr) : option (list NodoCarga) :=
  a ← p; n ← h !! a; Some (<[a := mkNodoCarga (dato n) (siguiente n) q]> h).

(** [void insertarAlFinal(char dato)] *)
Definition insertarAlFinal (l : t) (d : ascii) : option t :=
  let '(h, nuevo_) := nuevo (nodos l) d in
  match cabeza l with
  | None => Some (mk h nuevo_ nuevo_)
  | Some _ =>
      h1 ← asignar_siguiente h (cola l) nuevo_;
      h2 ← asignar_previo h1 nuevo_ (cola l);
      Some (mk h2 (cabeza l) nuevo_)
  end.

(** The loop [while (actual != nullptr) { cout << actual->dato;
    actual = actual->siguiente; }], returning the characters written.
    [fuel] bounds the number of nodes visited. *)
Fixpoint recorrer (fuel : nat) (h : list NodoCarga) (actual : ptr) : option string :=
  match actual with
  | None => Some ""
  | Some a =>
      match fuel with
      | O => None
      | S fuel' =>
          n ← h !! a;
          resto ← recorrer fuel' h (siguiente n);
          Some (String (dato n) resto)
      end
  end.

(** The text of the message: what the loop of [imprimirMensaje] writes.
    A walk that has visited every allocated node and still has not met
    [nullptr] is on a cycle and never ends, so the number of allocated
    nodes is all the fuel a terminating walk needs. *)
Definition mensaje (l : t) : option string :=
  recorrer (length (nodos l)) (nodos l) (cabeza l).

(** [void imprimirMensaje()]: the message, then [endl]. *)
Definition imprimirMensaje (l : t) : option string :=
  m ← mensaje l; Some (m ++ endl).

End ListaDeCarga.

(** ** Frames *)

(** [TramaLoad] and [TramaMap], the two classes derived from [TramaBase],
    with their one field each. *)
Inductive TramaBase : Type :=
  | TramaLoad (caracter : ascii)
  | TramaMap (rotacion : Z).

(** [cout << c] for a [char]. *)
Definition cout_char (c : ascii) : string := String c "".

(** [cout << n] for an [int]: decimal digits, with a minus sign when negative. *)
Definition cout_int (n : Z) : string := pretty n.

(** [procesar(carga, rotor)], by the dynamic type of the frame.  The result
    is the new state of the two structures and the text written. *)
Definition procesar (trama : TramaBase) (carga : ListaDeCarga.t) (rotor : RotorDeMapeo.t)
  : option (ListaDeCarga.t * RotorDeMapeo.t * string) :=
  match trama with
  | TramaLoad caracter =>
      decodificado ← RotorDeMapeo.getMapeo rotor caracter;
      carga' ← ListaDeCarga.insertarAlFinal carga decodificado;
      Some (carga', rotor,
            "Fragmento '" ++ cout_char caracter ++ "' decodificado como '"
            ++ cout_char decodificado ++ "'." ++ endl)
  | TramaMap rotacion =>
      rotor' ← RotorDeMapeo.rotar rotor rotacion;
      Some (carga, rotor',
            if (rotacion >? 0)%Z
            then "ROTANDO ROTOR +" ++ cout_int rotacion ++ endl
            else "ROTANDO ROTOR " ++ cout_int rotacion ++ endl)
  end.

(** ** parsearLinea *)

(** The length loop [while (linea[longitud] != 0) longitud++]. *)
Fixpoint strlen (linea : string) : nat :=
  match linea with
  | EmptyString => 0
  | String c resto => if Ascii.eqb c NUL then 0 else S (strlen resto)
  end.

(** [linea + i]: the buffer from index [i] on. *)
Fixpoint desde (i : nat) (linea : string) : string :=
  match i, linea with
  | O, _ => linea
  | S i', String _ resto => desde i' resto
  | S _, EmptyString => EmptyString
  end.

Definition es_digito (c : ascii) : bool :=
  ((char_int c >=? char_int "0") && (char_int c <=? char_int "9"))%Z.

(** The digit loop
    [while (linea[indice] >= '0' && linea[indice] <= '9')
       { numero = numero * 10 + (linea[indice] - '0'); indice++; }]
    where [resto] is the buffer from [indice] on.  The terminator is not a
    digit, so the loop ends at the end of the text at the latest. *)
Fixpoint leer_digitos (resto : string) (numero : Z) (indice : nat) : Z * nat :=
  match resto with
  | EmptyString => (numero, indice)
  | String c resto' =>
      if es_digito c
      then leer_digitos resto'
             (Int.add (Int.mul numero 10) (char_int c - char_int "0")) (S indice)
      else (numero, indice)
  end.

(** [TramaBase* parsearLinea(char* linea)]; [None] is [nullptr]. *)
Definition parsearLinea (linea : string) : option TramaBase :=
  let longitud := strlen linea in
  if (longitud <? 3)%nat then None
  else
    let tipo := char_at linea 0 in
    if negb (Ascii.eqb (char_at linea 1) ",") then None
    else if Ascii.eqb tipo "L" then
      let caracter := char_at linea 2 in
      Some (TramaLoad caracter)
    else if Ascii.eqb tipo "M" then
      let numero := 0%Z in
      let signo := 1%Z in
      let indice := 2 in
      let '(signo, indice) :=
        if Ascii.eqb (char_at linea indice) "-" then ((-1)%Z, S indice)
        else (signo, indice) in
      let '(numero, indice) := leer_digitos (desde indice linea) numero indice in
      if (indice =? 2)%nat || ((signo =? -1)%Z && (indice =? 3)%nat) then None
      else
        let numero := Int.mul numero signo in
        Some (TramaMap numero)
    else None.

(** ** The main loop *)

(** The state [main] keeps across iterations, and the text written to
    [cout] so far. *)
Record Sesion : Type := mkSesion {
  miListaDeCarga : ListaDeCarga.t;
  miRotorDeMapeo : RotorDeMapeo.t;
  cout : string
}.

Inductive Flujo : Type :=
  | Continuar   (* [continue], or the end of the loop body *)
  | Romper.     (* [break] *)

(** [cout << linea] for the buffer: the text up to the terminator. *)
Fixpoint cout_cstr (linea : string) : string :=
  match linea with
  | EmptyString => ""
  | String c resto => if Ascii.eqb c NUL then "" else String c (cout_cstr resto)
  end.

Definition escribir (s : Sesion) (texto : string) : Sesion :=
  mkSesion (miListaDeCarga s) (miRotorDeMapeo s) (cout s ++ texto).

(** One iteration of [while (true)] in [main], for a line delivered by
    [leerLineaSerial]. *)
Definition iteracion (s : Sesion) (linea : string) : option (Sesion * Flujo) :=
  if Ascii.eqb (char_at linea 0) NUL then Some (s, Continuar)
  else if Ascii.eqb (char_at linea 0) "I" then
    Some (escribir s ("--- Inicio de transmision ---" ++ endl ++ endl), Continuar)
  else if Ascii.eqb (char_at linea 0) "F" && Ascii.eqb (char_at linea 1) "I"
          && Ascii.eqb (char_at linea 2) "N" then
    Some (escribir s (endl ++ "--- Fin de transmision ---" ++ endl), Romper)
  else
    let s := escribir s ("Trama: [" ++ cout_cstr linea ++ "] -> ") in
    match parsearLinea linea with
    | None => Some (escribir s ("ERROR: Trama mal formada" ++ endl), Continuar)
    | Some trama =>
        '(carga, rotor, texto) ← procesar trama (miListaDeCarga s) (miRotorDeMapeo s);
        Some (mkSesion carga rotor (cout s ++ texto ++ endl), Continuar)
    end.

(** The loop over the lines the serial port delivers.  When the lines run
    out before ["FIN"] the program is still waiting for the next one:
    the state reached is returned with [Continuar]. *)
Fixpoint bucle (lineas : list string) (s : Sesion) : option (Sesion * Flujo) :=
  match lineas with
  | [] => Some (s, Continuar)
  | linea :: resto =>
      '(s', f) ← iteracion s linea;
      match f with
      | Romper => Some (s', Romper)
      | Continuar => bucle resto s'
      end
  end.

(** What [main] does once the port is open: the structures it created, the
    loop, and after ["FIN"] the final message.  The result is the text
    written from the loop on; [None] when the program does not end normally
    on these lines. *)
Definition sesion (lineas : list string) : option string :=
  rotor ← RotorDeMapeo.crear;
  '(s, f) ← bucle lineas (mkSesion ListaDeCarga.crear rotor "");
  match f with
  | Continuar => None
  | Romper =>
      m ← ListaDeCarga.imprimirMensaje (miListaDeCarga s);
      Some (cout s ++ "  --- Mensaje Decodificado ---:" ++ endl ++ m
            ++ endl ++ "Sistema apagado correctamente." ++ endl)
  end.

(** ** Notions the properties are stated with *)

(** The letter at a position of the fixed alphabet. *)
Definition letra_en_posicion (i : nat) : ascii := char_at RotorDeMapeo.alfabeto i.

(** The head position of a rotor: the place in the fixed alphabet of the
    letter stored in the node [cabeza] points to. *)
Definition posicion_cabeza (r : RotorDeMapeo.t) : option nat :=
  n ← RotorDeMapeo.leer (RotorDeMapeo.nodos r) (RotorDeMapeo.cabeza r);
  Some (Z.to_nat (char_int (RotorDeMapeo.dato n) - char_int "A")).

(** The store the constructor leaves: the node at address [i] holds letter
    [i] and points to its two neighbours on the ring. *)
Definition anillo : list RotorDeMapeo.NodoRotor :=
  (fun i => RotorDeMapeo.mkNodoRotor (letra_en_posicion i)
              (Some (S i mod 26)) (Some ((i + 25) mod 26))) <$> seq 0 26.

(** A rotor on that store whose head is one of its nodes. *)
Definition bien_formado (r : RotorDeMapeo.t) : Prop :=
  RotorDeMapeo.nodos r = anillo /\
  exists k, RotorDeMapeo.cabeza r = Some k /\ k < 26.

(** The operations a client has on a rotor. *)
Inductive Operacion : Type :=
  | OpRotar (N : Z)
  | OpGetMapeo (c : ascii).

Definition ejecutar (r : RotorDeMapeo.t) (op : Operacion) : option RotorDeMapeo.t :=
  match op with
  | OpRotar N => RotorDeMapeo.rotar r N
  | OpGetMapeo c => _ ← RotorDeMapeo.getMapeo r c; Some r
  end.

(** The argument of [rotar] is an [int]. *)
Definition operacion_valida (op : Operacion) : Prop :=
  match op with
  | OpRotar N => Int.in_range N
  | OpGetMapeo _ => True
  end.

(** The rotor states a program can see: the constructed rotor, and any
    state an operation returns from one of them. *)
Inductive alcanzable : RotorDeMapeo.t -> Prop :=
  | alcanzable_crear r :
      RotorDeMapeo.crear = Some r -> alcanzable r
  | alcanzable_paso r op r' :
      alcanzable r -> operacion_valida op -> ejecutar r op = Some r' ->
      alcanzable r'.

(** Applying a sequence of rotations, in order. *)
Fixpoint rotar_todas (r : RotorDeMapeo.t) (Ns : list Z) : option RotorDeMapeo.t :=
  match Ns with
  | [] => Some r
  | N :: Ns' => r' ← RotorDeMapeo.rotar r N; rotar_todas r' Ns'
  end.

Definition suma (Ns : list Z) : Z := fold_right Z.add 0%Z Ns.

(** Going [n] nodes round the ring from [p] with [paso], reading the
    letters passed; the result also has the pointer reached. *)
Fixpoint vuelta (paso : list RotorDeMapeo.NodoRotor -> ptr -> option ptr) (n : nat)
    (h : list RotorDeMapeo.NodoRotor) (p : ptr) : option (list ascii * ptr) :=
  match n with
  | O => Some ([], p)
  | S n' =>
      nodo ← RotorDeMapeo.leer h p;
      q ← paso h p;
      '(letras, fin) ← vuelta paso n' h q;
      Some (RotorDeMapeo.dato nodo :: letras, fin)
  end.

Definition letras : list ascii := list_ascii_of_string RotorDeMapeo.alfabeto.

(** The alphabet read cyclically from position [k]. *)
Definition rotacion_alfabeto (k : nat) : list ascii := (drop k letras ++ take k letras)%list.

(** The invariant of the rotor: one full turn forwards from the head reads
    the 26 letters in alphabetical order, cyclically from the head's letter,
    and comes back to the head; one full turn backwards reads the same
    cycle in the opposite direction. *)
Definition anillo_intacto (r : RotorDeMapeo.t) : Prop :=
  exists k, k < 26 /\
    posicion_cabeza r = Some k /\
    vuelta RotorDeMapeo.paso_siguiente 26 (RotorDeMapeo.nodos r) (RotorDeMapeo.cabeza r)
      = Some (rotacion_alfabeto k, RotorDeMapeo.cabeza r) /\
    vuelta RotorDeMapeo.paso_previo 26 (RotorDeMapeo.nodos r) (RotorDeMapeo.cabeza r)
      = Some (rev (rotacion_alfabeto (S k)), RotorDeMapeo.cabeza r).

(** Appending a sequence of characters, in order. *)
Fixpoint insertarTodos (l : ListaDeCarga.t) (cs : list ascii) : option ListaDeCarga.t :=
  match cs with
  | [] => Some l
  | c :: cs' => l' ← ListaDeCarga.insertarAlFinal l c; insertarTodos l' cs'
  end.

(** The list [insertarAlFinal] builds from the characters [cs]: the node at
    address [i] holds the [i]-th character, its [siguiente] is the next
    address, or [nullptr] in the last node, and its [previo] the address
    before, or [nullptr] in the first. *)
Definition ptr_de (n i : nat) : ptr := if (i <? n)%nat then Some i else nullptr.

Definition nodo_de (n i : nat) (c : ascii) : ListaDeCarga.NodoCarga :=
  ListaDeCarga.mkNodoCarga c (ptr_de n (S i))
    (match i with O => nullptr | S j => Some j end).

Definition lista_de (cs : list ascii) : ListaDeCarga.t :=
  ListaDeCarga.mk (imap (nodo_de (length cs)) cs)
    (ptr_de (length cs) 0)
    (match length cs with O => nullptr | S m => Some m end).

(** The number a run of decimal digits denotes, continuing from [acc]. *)
Fixpoint valor_desde (acc : Z) (digitos : string) : Z :=
  match digitos with
  | EmptyString => acc
  | String c resto => valor_desde (acc * 10 + (char_int c - char_int "0")) resto
  end.

Definition valor (digitos : string) : Z := valor_desde 0 digitos.

Definition valor_con_signo (negativo : bool) (digitos : string) : Z :=
  if negativo then (- valor digitos)%Z else valor digitos.

Fixpoint todos_digitos (s : string) : bool :=
  match s with
  | EmptyString => true
  | String c resto => es_digito c && todos_digitos resto
  end.

(** The first character of [s], if it has one, is not a digit. *)
Definition no_empieza_con_digito (s : string) : bool :=
  match s with
  | EmptyString => true
  | String c _ => negb (es_digito c)
  end.

(** A rotation line: the tag, the comma, the optional sign, the digit run
    and whatever follows it. *)
Definition linea_M (negativo : bool) (digitos sufijo : string) : string :=
  "M," ++ (if negativo then "-" else "") ++ digitos ++ sufijo.

(** The error kinds the specification names.  The code has no counterpart
    of them: every rejection of [parsearLinea] is the one [nullptr]. *)
Inductive ParseError : Type :=
  | MalformedFrame
  | UnknownType
  | MissingNumber.

(** The shapes [parsearLinea] rejects. *)
Definition forma_invalida (linea : string) : bool :=
  (strlen linea <? 3)%nat || negb (Ascii.eqb (char_at linea 1) ",").

Definition tipo_desconocido (linea : string) : bool :=
  negb (Ascii.eqb (char_at linea 0) "L") && negb (Ascii.eqb (char_at linea 0) "M").

Definition sin_numero (linea : string) : bool :=
  Ascii.eqb (char_at linea 0) "M" &&
  negb (es_digito (char_at linea (if Ascii.eqb (char_at linea 2) "-" then 3 else 2))).

(** A line the main loop hands to [parsearLinea]: not empty, not the start
    marker, not the end marker. *)
Definition es_trama (linea : string) : bool :=
  negb (Ascii.eqb (char_at linea 0) NUL) &&
  negb (Ascii.eqb (char_at linea 0) "I") &&
  negb (Ascii.eqb (char_at linea 0) "F" && Ascii.eqb (char_at linea 1) "I"
        && Ascii.eqb (char_at linea 2) "N").

(** ** The destructors *)

(** The loop both destructors share,
    [while (actual != nullptr) { siguiente = actual->siguiente;
       delete actual; actual = siguiente; }],
    over a store [h] whose nodes give their successor with [sig].
    [liberados] lists the addresses deleted so far, the latest first.
    Reading or deleting a node that was deleted, or was never allocated, is
    an error.  Every iteration deletes one more allocated node, so a walk
    that has used up as many iterations as there are nodes and still holds a
    pointer can only go on to such an error: [fuel] is the number of nodes. *)
Fixpoint liberar {N : Type} (sig : N -> ptr) (fuel : nat) (h : list N)
    (liberados : list nat) (actual : ptr) : option (list nat) :=
  match actual with
  | None => Some liberados
  | Some a =>
      match fuel with
      | O => None
      | S fuel' =>
          if bool_decide (a ∈ liberados) then None
          else n ← h !! a; liberar sig fuel' h (a :: liberados) (sig n)
      end
  end.

(** [RotorDeMapeo::~RotorDeMapeo()]: the addresses deleted. *)
Definition destruir_RotorDeMapeo (r : RotorDeMapeo.t) : option (list nat) :=
  match RotorDeMapeo.cabeza r with
  | None => Some []
  | Some _ =>
      n ← RotorDeMapeo.leer (RotorDeMapeo.nodos r) (RotorDeMapeo.cabeza r);
      let ultimo := RotorDeMapeo.previo n in
      h ← RotorDeMapeo.asignar_siguiente (RotorDeMapeo.nodos r) ultimo nullptr;
      liberar RotorDeMapeo.siguiente (length h) h [] (RotorDeMapeo.cabeza r)
  end.

(** [ListaDeCarga::~ListaDeCarga()]: the addresses deleted. *)
Definition destruir_ListaDeCarga (l : ListaDeCarga.t) : option (list nat) :=
  liberar ListaDeCarga.siguiente (length (ListaDeCarga.nodos l))
    (ListaDeCarga.nodos l) [] (ListaDeCarga.cabeza l).

(** Walking the payload list backwards from [actual] along [previo],
    reading the characters passed. *)
Fixpoint recorrer_atras (fuel : nat) (h : list ListaDeCarga.NodoCarga) (actual : ptr)
  : option (list ascii) :=
  match actual with
  | None => Some []
  | Some a =>
      match fuel with
      | O => None
      | S fuel' =>
          n ← h !! a;
          resto ← recorrer_atras fuel' h (ListaDeCarga.previo n);
          Some (ListaDeCarga.dato n :: resto)
      end
  end.

(** The letters 'A'..'Z'. *)
Definition es_letra (c : ascii) : Prop :=
  (char_int "A" <= char_int c <= char_int "Z")%Z.

(** ** leerLineaSerial *)

(** What [leerLineaSerial] comes to: it returns, with its result, the
    buffer and the reads still to come; or it is still waiting for a byte
    when the reads end; or it has written outside the buffer. *)
Inductive Lectura : Type :=
  | Leida (resultado : bool) (buffer : list ascii) (resto : list (option ascii))
  | Esperando
  | FueraDeRango.

(** [buffer[i] = c] on an array of [length buffer] characters. *)
Definition escribir_buffer (buffer : list ascii) (i : nat) (c : ascii)
  : option (list ascii) :=
  if (i <? length buffer)%nat then Some (<[i := c]> buffer) else None.

(** ['\n'] or ['\r']. *)
Definition es_salto (c : ascii) : bool :=
  Ascii.eqb c "010" || Ascii.eqb c "013".

(** The loop of [leerLineaSerial] from the value [posicion] has.  Each
    element of [lecturas] is what one call [read(fd, &c, 1)] gives: a byte,
    or [None] when it returns [n <= 0]. *)
Fixpoint leer_desde (lecturas : list (option ascii)) (buffer : list ascii)
    (posicion : nat) (maxLen : Z) : Lectura :=
  if (Z.of_nat posicion <? Int.add maxLen (-1))%Z then
    match lecturas with
    | [] => Esperando
    | None :: resto => leer_desde resto buffer posicion maxLen
    | Some c :: resto =>
        if es_salto c then
          if (0 <? posicion)%nat then
            match escribir_buffer buffer posicion NUL with
            | Some buffer' => Leida true buffer' resto
            | None => FueraDeRango
            end
          else leer_desde resto buffer posicion maxLen
        else
          match escribir_buffer buffer posicion c with
          | Some buffer' => leer_desde resto buffer' (S posicion) maxLen
          | None => FueraDeRango
          end
    end
  else
    match escribir_buffer buffer posicion NUL with
    | Some buffer' => Leida (0 <? posicion)%nat buffer' lecturas
    | None => FueraDeRango
    end.

(** [bool leerLineaSerial(int fd, char* buffer, int maxLen)] *)
Definition leerLineaSerial (lecturas : list (option ascii)) (buffer : list ascii)
    (maxLen : Z) : Lectura :=
  leer_desde lecturas buffer 0 maxLen.




(** A read that [leerLineaSerial] passes over before a line starts: no
    byte, or a line end. *)
Definition lectura_vacia (x : option ascii) : bool :=
  match x with
  | None => true
  | Some c => es_salto c
  end.

(** ** Notions for the main loop *)

(** The session states [main] can be in: a reachable rotor and a payload
    list built by [insertarAlFinal]. *)
Definition sesion_bien_formada (s : Sesion) : Prop :=
  alcanzable (miRotorDeMapeo s) /\ exists cs, miListaDeCarga s = lista_de cs.

(** The end marker: the first three characters are ["FIN"]. *)
Definition es_fin (linea : string) : bool :=
  Ascii.eqb (char_at linea 0) "F" && Ascii.eqb (char_at linea 1) "I"
  && Ascii.eqb (char_at linea 2) "N".

(** A line that changes neither rotor nor payload and does not end the
    loop: empty, a start marker, or a frame [parsearLinea] rejects. *)
Definition sin_efecto (linea : string) : bool :=
  Ascii.eqb (char_at linea 0) NUL
  || Ascii.eqb (char_at linea 0) "I"
  || (negb (es_fin linea) && match parsearLinea linea with None => true | Some _ => false end).

(** Two sessions with the same payload list and the same rotor; the text
    written so far may differ. *)
Definition misma_maquina (a b : Sesion) : Prop :=
  miListaDeCarga a = miListaDeCarga b /\ miRotorDeMapeo a = miRotorDeMapeo b.

(** Two runs of the loop that fail together, or end in the same way with
    the same payload list and rotor. *)
Definition mismo_resultado (x y : option (Sesion * Flujo)) : Prop :=
  match x, y with
  | Some (a, f), Some (b, g) => misma_maquina a b /\ f = g
  | None, None => True
  | _, _ => False
  end.


(** * Properties *)

(** ** Machine integers *)

Lemma wrap_in_range z : Int.in_range (Int.wrap z).
Proof.
  unfold Int.in_range, Int.wrap, Int.MIN, Int.MAX.
  pose proof (Z.mod_pos_bound (z + 2147483648) 4294967296). lia.
Qed.

Lemma wrap_id z : Int.in_range z -> Int.wrap z = z.
Proof.
  unfold Int.in_range, Int.wrap, Int.MIN, Int.MAX. intros H.
  rewrite Z.mod_small; lia.
Qed.

(** [wrap] only depends on the residue modulo 2^32. *)
Lemma wrap_congr a b : (a mod 4294967296 = b mod 4294967296)%Z -> Int.wrap a = Int.wrap b.
Proof.
  intros H. unfold Int.wrap. f_equal.
  rewrite (Z.add_mod a), (Z.add_mod b), H by lia. reflexivity.
Qed.

Lemma wrap_mod z : (Int.wrap z mod 4294967296 = z mod 4294967296)%Z.
Proof.
  unfold Int.wrap.
  rewrite Zminus_mod_idemp_l. f_equal. lia.
Qed.

Lemma wrap_acumula a d : Int.add (Int.mul (Int.wrap a) 10) d = Int.wrap (a * 10 + d).
Proof.
  unfold Int.add, Int.mul. apply wrap_congr.
  rewrite Z.add_mod, wrap_mod by lia.
  rewrite Z.mul_mod, wrap_mod by lia.
  rewrite <- Z.mul_mod, <- Z.add_mod by lia. reflexivity.
Qed.

Lemma wrap_signo a s : Int.mul (Int.wrap a) s = Int.wrap (a * s).
Proof.
  unfold Int.mul. apply wrap_congr.
  rewrite Z.mul_mod, wrap_mod by lia.
  rewrite <- Z.mul_mod by lia. reflexivity.
Qed.

Lemma neg_id z : Int.in_range z -> z <> Int.MIN -> Int.neg z = (- z)%Z.
Proof.
  unfold Int.neg, Int.in_range, Int.MIN, Int.MAX. intros H1 H2.
  apply wrap_id. unfold Int.in_range, Int.MIN, Int.MAX. lia.
Qed.

(** ** The ring of the rotor *)

Section Anillo.
Import RotorDeMapeo.

Lemma crear_anillo : crear = Some (mk anillo (Some 0)).
Proof. vm_compute. reflexivity. Qed.

Lemma anillo_lookup i :
  i < 26 ->
  anillo !! i = Some (mkNodoRotor (letra_en_posicion i)
                        (Some (S i mod 26)) (Some ((i + 25) mod 26))).
Proof.
  intros Hi. unfold anillo.
  rewrite list_lookup_fmap, lookup_seq_lt by exact Hi. reflexivity.
Qed.

Lemma paso_siguiente_anillo k :
  k < 26 -> paso_siguiente anillo (Some k) = Some (Some (S k mod 26)).
Proof.
  intros Hk. unfold paso_siguiente, leer. simpl.
  rewrite anillo_lookup by exact Hk. reflexivity.
Qed.

Lemma paso_previo_anillo k :
  k < 26 -> paso_previo anillo (Some k) = Some (Some ((k + 25) mod 26)).
Proof.
  intros Hk. unfold paso_previo, leer. simpl.
  rewrite anillo_lookup by exact Hk. reflexivity.
Qed.

Lemma repetir_siguiente n : forall k,
  k < 26 ->
  repetir n (paso_siguiente anillo) (Some k) = Some (Some ((k + n) mod 26)).
Proof.
  induction n as [|n IH]; intros k Hk; cbn [repetir].
  - rewrite Nat.add_0_r, Nat.mod_small by exact Hk. reflexivity.
  - rewrite paso_siguiente_anillo by exact Hk. cbn [mbind option_bind].
    rewrite IH by (apply Nat.mod_upper_bound; lia).
    rewrite Nat.Div0.add_mod_idemp_l. do 3 f_equal. lia.
Qed.

Lemma repetir_previo n : forall k,
  k < 26 ->
  repetir n (paso_previo anillo) (Some k) = Some (Some ((k + 25 * n) mod 26)).
Proof.
  induction n as [|n IH]; intros k Hk; cbn [repetir].
  - rewrite Nat.add_0_r, Nat.mod_small by exact Hk. reflexivity.
  - rewrite paso_previo_anillo by exact Hk. cbn [mbind option_bind].
    rewrite IH by (apply Nat.mod_upper_bound; lia).
    rewrite Nat.Div0.add_mod_idemp_l. do 3 f_equal. lia.
Qed.

Lemma adelante_Z (k : nat) (N : Z) :
  (0 <= N)%Z ->
  (k + Z.to_nat N) mod 26 = Z.to_nat ((Z.of_nat k + N) mod 26).
Proof.
  intros HN. rewrite <- (Z2Nat.id N) at 2 by exact HN.
  rewrite <- Nat2Z.inj_add.
  change 26%Z with (Z.of_nat 26).
  rewrite <- Nat2Z.inj_mod, Nat2Z.id. reflexivity.
Qed.

Lemma atras_Z (k : nat) (M : Z) :
  (0 <= M)%Z ->
  (k + 25 * Z.to_nat M) mod 26 = Z.to_nat ((Z.of_nat k - M) mod 26).
Proof.
  intros HM.
  apply Nat2Z.inj. rewrite Nat2Z.inj_mod.
  rewrite Z2Nat.id by (apply Z.mod_pos_bound; lia).
  rewrite Nat2Z.inj_add, Nat2Z.inj_mul, Z2Nat.id by exact HM.
  replace (Z.of_nat k + Z.of_nat 25 * M)%Z
    with (Z.of_nat k - M + M * Z.of_nat 26)%Z by lia.
  apply Z_mod_plus_full.
Qed.

(** [rotar] on a well-formed rotor, for every amount but the most
    negative one: the head moves by the amount, modulo 26. *)
Lemma rotar_mueve r k N :
  nodos r = anillo -> cabeza r = Some k -> k < 26 ->
  Int.in_range N -> N <> Int.MIN ->
  rotar r N = Some (mk anillo (Some (Z.to_nat ((Z.of_nat k + N) mod 26)))).
Proof.
  intros Hn Hc Hk HN Hmin. unfold rotar.
  destruct (Z.eqb_spec N 0) as [->|Hz].
  - rewrite Z.add_0_r.
    change 26%Z with (Z.of_nat 26). rewrite <- Nat2Z.inj_mod, Nat2Z.id.
    rewrite Nat.mod_small by exact Hk.
    destruct r; simpl in *; subst; reflexivity.
  - destruct (Z.gtb_spec N 0) as [Hpos|Hneg].
    + rewrite Hn, Hc, repetir_siguiente by exact Hk. cbn [mbind option_bind].
      rewrite adelante_Z by lia. reflexivity.
    + rewrite neg_id by assumption.
      rewrite Hn, Hc, repetir_previo by exact Hk. cbn [mbind option_bind].
      rewrite atras_Z by lia.
      replace (Z.of_nat k - - N)%Z with (Z.of_nat k + N)%Z by lia. reflexivity.
Qed.

(** At the most negative amount the negation wraps to the same value, the
    backward loop does not run and the rotor is returned as it was. *)
Lemma rotar_MIN r : rotar r Int.MIN = Some r.
Proof. destruct r. reflexivity. Qed.

(** [rotar] never fails on a well-formed rotor and returns one. *)
Lemma rotar_bien_formado r N :
  bien_formado r -> Int.in_range N ->
  exists r', rotar r N = Some r' /\ bien_formado r'.
Proof.
  intros [Hn (k & Hc & Hk)] HN.
  destruct (Z.eq_dec N Int.MIN) as [->|Hmin].
  - exists r. split; [apply rotar_MIN | split; eauto].
  - eexists. split; [eapply rotar_mueve; eassumption|].
    split; [reflexivity|]. eexists. split; [reflexivity|].
    pose proof (Z.mod_pos_bound (Z.of_nat k + N) 26). lia.
Qed.

Lemma getMapeo_letra r k c :
  nodos r = anillo -> cabeza r = Some k -> k < 26 ->
  (char_int "A" <= char_int c <= char_int "Z")%Z ->
  getMapeo r c
  = Some (letra_en_posicion ((k + Z.to_nat (char_int c - char_int "A")) mod 26)).
Proof.
  intros Hn Hc Hk Hr. unfold getMapeo.
  destruct (Ascii.eqb_spec c " ") as [->|_].
  { change (char_int " ") with 32%Z in Hr.
    change (char_int "A") with 65%Z in Hr. lia. }
  destruct (Z.ltb_spec (char_int c) (char_int "A")); [lia|].
  destruct (Z.gtb_spec (char_int c) (char_int "Z")); [lia|]. simpl.
  rewrite Hn, Hc, repetir_siguiente by exact Hk. cbn [mbind option_bind].
  unfold leer. cbn [mbind option_bind].
  rewrite anillo_lookup by (apply Nat.mod_upper_bound; lia). reflexivity.
Qed.

Lemma getMapeo_total r c :
  bien_formado r -> exists d, getMapeo r c = Some d.
Proof.
  intros [Hn (k & Hc & Hk)]. unfold getMapeo.
  destruct (Ascii.eqb c " "); [eauto|].
  destruct (_ || _); [eauto|].
  rewrite Hn, Hc, repetir_siguiente by exact Hk. cbn [mbind option_bind].
  unfold leer. cbn [mbind option_bind].
  rewrite anillo_lookup by (apply Nat.mod_upper_bound; lia). simpl. eauto.
Qed.

Lemma alcanzable_bien_formado r : alcanzable r -> bien_formado r.
Proof.
  induction 1 as [r Hr | r op r' _ IH Hop Hex].
  - rewrite crear_anillo in Hr. injection Hr as <-.
    split; [reflexivity|]. exists 0. split; [reflexivity | lia].
  - destruct op as [N | c]; simpl in *.
    + destruct (rotar_bien_formado r N IH Hop) as (r'' & Hrot & Hbf).
      congruence.
    + destruct (getMapeo_total r c IH) as [d Hd].
      rewrite Hd in Hex. simpl in Hex. congruence.
Qed.

Lemma posicion_cabeza_anillo r k :
  nodos r = anillo -> cabeza r = Some k -> k < 26 ->
  posicion_cabeza r = Some k.
Proof.
  intros Hn Hc Hk. unfold posicion_cabeza, leer. rewrite Hn, Hc. simpl.
  rewrite anillo_lookup by exact Hk. simpl. f_equal.
  do 26 (destruct k as [|k]; [vm_compute; reflexivity|]). lia.
Qed.

Lemma anillo_intacto_bien_formado r : bien_formado r -> anillo_intacto r.
Proof.
  intros [Hn (k & Hc & Hk)]. exists k. split; [exact Hk|].
  split; [apply posicion_cabeza_anillo; assumption|].
  rewrite Hn, Hc.
  do 26 (destruct k as [|k]; [split; vm_compute; reflexivity|]). lia.
Qed.
End Anillo.

(** ** Rotations compose *)

Lemma suma_cons N Ns : suma (N :: Ns) = (N + suma Ns)%Z.
Proof. reflexivity. Qed.

(** A sequence of rotations, none of them the most negative integer, moves
    the head by the sum of the amounts modulo 26. *)
Lemma rotar_todas_suma Ns : forall r k,
  RotorDeMapeo.nodos r = anillo -> RotorDeMapeo.cabeza r = Some k -> k < 26 ->
  Forall (fun N => Int.in_range N /\ N <> Int.MIN) Ns ->
  rotar_todas r Ns
  = Some (RotorDeMapeo.mk anillo (Some (Z.to_nat ((Z.of_nat k + suma Ns) mod 26)))).
Proof.
  induction Ns as [|N Ns IH]; intros r k Hn Hc Hk HNs.
  - cbn [rotar_todas suma fold_right]. rewrite Z.add_0_r.
    change 26%Z with (Z.of_nat 26). rewrite <- Nat2Z.inj_mod, Nat2Z.id.
    rewrite Nat.mod_small by exact Hk.
    destruct r; simpl in *; subst; reflexivity.
  - apply Forall_cons in HNs as [[HN Hmin] HNs].
    cbn [rotar_todas].
    rewrite (rotar_mueve r k N) by assumption. cbn [mbind option_bind].
    pose proof (Z.mod_pos_bound (Z.of_nat k + N) 26 ltac:(lia)) as Hb.
    rewrite (IH _ (Z.to_nat ((Z.of_nat k + N) mod 26)))
      by (try reflexivity; try assumption; lia).
    rewrite Z2Nat.id by lia. rewrite suma_cons.
    rewrite Zplus_mod_idemp_l. do 5 f_equal. lia.
Qed.

(** Rotations that add up to a multiple of 26, none of them the most
    negative integer, leave every decoding as it was. *)
Lemma getMapeo_tras_vuelta_completa r Ns c :
  alcanzable r ->
  Forall (fun N => Int.in_range N /\ N <> Int.MIN) Ns ->
  (suma Ns mod 26 = 0)%Z ->
  exists r', rotar_todas r Ns = Some r' /\
    RotorDeMapeo.getMapeo r' c = RotorDeMapeo.getMapeo r c.
Proof.
  intros Hr HNs Hs.
  destruct (alcanzable_bien_formado r Hr) as [Hn (k & Hc & Hk)].
  eexists. split; [eapply rotar_todas_suma; eassumption|].
  rewrite <- Zplus_mod_idemp_r, Hs, Z.add_0_r.
  change 26%Z with (Z.of_nat 26). rewrite <- Nat2Z.inj_mod, Nat2Z.id.
  rewrite Nat.mod_small by exact Hk.
  destruct r; simpl in *; subst; reflexivity.
Qed.

(** On a reachable rotor, [rotar] by any [int] but the most negative one
    moves the head position by the amount, modulo 26. *)
Lemma rotar_desplaza r N :
  alcanzable r -> Int.in_range N -> N <> Int.MIN ->
  exists k r',
    posicion_cabeza r = Some k /\
    RotorDeMapeo.rotar r N = Some r' /\
    posicion_cabeza r' = Some (Z.to_nat ((Z.of_nat k + N) mod 26)).
Proof.
  intros Hr HN Hmin.
  destruct (alcanzable_bien_formado r Hr) as [Hn (k & Hc & Hk)].
  exists k. eexists.
  split; [apply posicion_cabeza_anillo; assumption|].
  split; [exact (rotar_mueve r k N Hn Hc Hk HN Hmin)|].
  pose proof (Z.mod_pos_bound (Z.of_nat k + N) 26 ltac:(lia)).
  apply posicion_cabeza_anillo; [reflexivity | reflexivity | lia].
Qed.

(** ** The claims on the rotor *)

(** C1.  In every reachable rotor state, [getMapeo] returns the space for
    the space, returns any character outside 'A'..'Z' unchanged, and for a
    letter at offset [p] from 'A' returns the letter of the fixed alphabet
    at position (head position + p) mod 26. *)
Theorem getMapeo_decodifica (r : RotorDeMapeo.t) (c : ascii) :
  alcanzable r ->
  (c = " "%char -> RotorDeMapeo.getMapeo r c = Some " "%char) /\
  ((char_int c < char_int "A" \/ char_int c > char_int "Z")%Z ->
     RotorDeMapeo.getMapeo r c = Some c) /\
  ((char_int "A" <= char_int c <= char_int "Z")%Z ->
     exists k, posicion_cabeza r = Some k /\
       RotorDeMapeo.getMapeo r c
       = Some (letra_en_posicion
                 ((k + Z.to_nat (char_int c - char_int "A")) mod 26))).
Proof.
  intros Hr. repeat split.
  - intros ->. reflexivity.
  - intros Hfuera. unfold RotorDeMapeo.getMapeo.
    destruct (Ascii.eqb_spec c " ") as [->|_]; [reflexivity|].
    destruct (Z.ltb_spec (char_int c) (char_int "A")); [reflexivity|].
    destruct (Z.gtb_spec (char_int c) (char_int "Z")); [reflexivity|].
    lia.
  - intros Hletra.
    destruct (alcanzable_bien_formado r Hr) as [Hn (k & Hc & Hk)].
    exists k. split.
    + apply posicion_cabeza_anillo; assumption.
    + apply getMapeo_letra; assumption.
Qed.

Lemma alcanzable_tres : alcanzable (RotorDeMapeo.mk anillo (Some 3)).
Proof.
  apply (alcanzable_paso (RotorDeMapeo.mk anillo (Some 0)) (OpRotar 3)).
  - apply alcanzable_crear, crear_anillo.
  - unfold operacion_valida, Int.in_range, Int.MIN, Int.MAX. lia.
  - reflexivity.
Qed.

Lemma getMapeo_decodifica_witness :
  RotorDeMapeo.getMapeo (RotorDeMapeo.mk anillo (Some 3)) " " = Some " "%char /\
  RotorDeMapeo.getMapeo (RotorDeMapeo.mk anillo (Some 3)) "a" = Some "a"%char /\
  exists k, posicion_cabeza (RotorDeMapeo.mk anillo (Some 3)) = Some k /\
    RotorDeMapeo.getMapeo (RotorDeMapeo.mk anillo (Some 3)) "Y"
    = Some (letra_en_posicion ((k + 24) mod 26)).
Proof.
  split; [|split].
  - apply (proj1 (getMapeo_decodifica _ " " alcanzable_tres)). reflexivity.
  - apply (proj1 (proj2 (getMapeo_decodifica _ "a" alcanzable_tres))).
    right. reflexivity.
  - apply (proj2 (proj2 (getMapeo_decodifica _ "Y" alcanzable_tres))).
    split; discriminate.
Defined.

(** C2, at the amount where the code departs from it.  On the constructed
    rotor, whose head position is 0, [rotar] with the most negative [int]
    succeeds but leaves the head at position 0, whereas
    (0 + (-2147483648)) mod 26 is 2. *)
Theorem rotar_MIN_no_desplaza :
  exists r,
    RotorDeMapeo.crear = Some r /\
    posicion_cabeza r = Some 0 /\
    Int.in_range Int.MIN /\
    RotorDeMapeo.rotar r Int.MIN = Some r /\
    Z.to_nat ((0 + Int.MIN) mod 26) = 2.
Proof.
  exists (RotorDeMapeo.mk anillo (Some 0)).
  split; [apply crear_anillo|].
  split; [reflexivity|].
  split; [unfold Int.in_range, Int.MIN, Int.MAX; lia|].
  split; [apply rotar_MIN | reflexivity].
Qed.

(** C5.  In every reachable rotor state a full turn from the head, in
    either direction, reads the 26 letters of the alphabet once each in
    their cyclic order and returns to the head; the nodes and their links
    are the same in all reachable states. *)
Theorem rotor_invariante (r : RotorDeMapeo.t) :
  alcanzable r ->
  anillo_intacto r /\
  (forall k, NoDup (rotacion_alfabeto k) /\ rotacion_alfabeto k ≡ₚ letras) /\
  length letras = 26 /\
  (forall r', alcanzable r' -> RotorDeMapeo.nodos r' = RotorDeMapeo.nodos r).
Proof.
  intros Hr.
  assert (Hperm : forall k, rotacion_alfabeto k ≡ₚ letras).
  { intros k. unfold rotacion_alfabeto.
    rewrite (Permutation_app_comm (drop k letras)). by rewrite take_drop. }
  assert (Hnd : NoDup letras).
  { apply (bool_decide_unpack (NoDup letras)). vm_compute. exact I. }
  split; [apply anillo_intacto_bien_formado, alcanzable_bien_formado, Hr|].
  split; [|split; [reflexivity|]].
  - intros k. split; [|apply Hperm].
    rewrite (Hperm k). exact Hnd.
  - intros r' Hr'.
    destruct (alcanzable_bien_formado r Hr) as [-> _].
    destruct (alcanzable_bien_formado r' Hr') as [-> _]. reflexivity.
Qed.

Lemma rotor_invariante_witness :
  anillo_intacto (RotorDeMapeo.mk anillo (Some 3)).
Proof. exact (proj1 (rotor_invariante _ alcanzable_tres)). Defined.

(** C6, on a sequence where the code departs from it.  The amounts
    -2147483648 and 24 add up to a multiple of 26, and yet on the
    constructed rotor 'A' decodes to 'A' before them and to 'Y' after. *)
Theorem getMapeo_cambia_tras_MIN :
  exists r r',
    RotorDeMapeo.crear = Some r /\
    Forall Int.in_range [Int.MIN; 24%Z] /\
    (suma [Int.MIN; 24%Z] mod 26 = 0)%Z /\
    rotar_todas r [Int.MIN; 24%Z] = Some r' /\
    RotorDeMapeo.getMapeo r "A" = Some "A"%char /\
    RotorDeMapeo.getMapeo r' "A" = Some "Y"%char.
Proof.
  exists (RotorDeMapeo.mk anillo (Some 0)), (RotorDeMapeo.mk anillo (Some 24)).
  split; [apply crear_anillo|].
  split; [repeat constructor; unfold Int.MIN, Int.MAX; lia|].
  repeat split.
Qed.

(** ** The parser *)

Lemma es_digito_rango c : es_digito c = true -> (48 <= char_int c <= 57)%Z.
Proof.
  unfold es_digito. change (char_int "0") with 48%Z. change (char_int "9") with 57%Z.
  intros H. apply andb_prop in H as [H1 H2]. lia.
Qed.

Lemma es_digito_no_NUL c : es_digito c = true -> Ascii.eqb c NUL = false.
Proof.
  intros H. apply es_digito_rango in H.
  destruct (Ascii.eqb_spec c NUL) as [->|]; [|reflexivity].
  change (char_int NUL) with 0%Z in H. lia.
Qed.

Lemma es_digito_no_menos c : es_digito c = true -> Ascii.eqb c "-" = false.
Proof.
  intros H. apply es_digito_rango in H.
  destruct (Ascii.eqb_spec c "-") as [->|]; [|reflexivity].
  change (char_int "-") with 45%Z in H. lia.
Qed.

Lemma append_nil (s : string) : "" ++ s = s.
Proof. reflexivity. Qed.

Lemma append_cons c (s t : string) : String c s ++ t = String c (s ++ t).
Proof. reflexivity. Qed.

Lemma leer_digitos_racha ds : forall suf a i,
  todos_digitos ds = true -> no_empieza_con_digito suf = true ->
  leer_digitos (ds ++ suf) (Int.wrap a) i
  = (Int.wrap (valor_desde a ds), i + String.length ds).
Proof.
  induction ds as [|d ds IH]; intros suf a i Hds Hsuf.
  - rewrite append_nil. cbn [valor_desde String.length]. rewrite Nat.add_0_r.
    destruct suf as [|c suf]; [reflexivity|].
    cbn [leer_digitos]. cbn [no_empieza_con_digito] in Hsuf.
    apply negb_true_iff in Hsuf. rewrite Hsuf. reflexivity.
  - cbn [todos_digitos] in Hds. apply andb_prop in Hds as [Hd Hds].
    rewrite append_cons. cbn [leer_digitos valor_desde String.length]. rewrite Hd.
    rewrite wrap_acumula, IH by assumption. f_equal. lia.
Qed.

Lemma strlen_tres c0 c1 c2 resto :
  Ascii.eqb c0 NUL = false -> Ascii.eqb c1 NUL = false -> Ascii.eqb c2 NUL = false ->
  (strlen (String c0 (String c1 (String c2 resto))) <? 3)%nat = false.
Proof. intros H0 H1 H2. cbn [strlen]. rewrite H0, H1, H2. reflexivity. Qed.

Lemma parsear_M negativo ds suf :
  ds <> "" -> todos_digitos ds = true -> no_empieza_con_digito suf = true ->
  parsearLinea (linea_M negativo ds suf)
  = Some (TramaMap (Int.wrap (valor_con_signo negativo ds))).
Proof.
  intros Hne Hds Hsuf.
  destruct ds as [|d ds]; [congruence|].
  pose proof Hds as Hds'.
  cbn [todos_digitos] in Hds'. apply andb_prop in Hds' as [Hd _].
  unfold parsearLinea, linea_M. rewrite !append_cons, append_nil.
  destruct negativo.
  - rewrite !append_cons, append_nil.
    rewrite strlen_tres by (reflexivity || apply es_digito_no_NUL, Hd).
    change (char_at _ 0) with "M"%char. change (char_at _ 1) with ","%char.
    change (char_at _ 2) with "-"%char.
    cbn [Ascii.eqb Bool.eqb negb desde].
    rewrite <- append_cons. change 0%Z with (Int.wrap 0) at 1.
    rewrite leer_digitos_racha by assumption.
    replace ((3 + String.length (String d ds) =? 2)%nat) with false
      by (symmetry; apply Nat.eqb_neq; cbn [String.length]; lia).
    replace ((3 + String.length (String d ds) =? 3)%nat) with false
      by (symmetry; apply Nat.eqb_neq; cbn [String.length]; lia).
    cbn [orb andb Z.eqb Pos.eqb]. rewrite wrap_signo.
    unfold valor_con_signo, valor. do 3 f_equal. lia.
  - rewrite append_nil.
    rewrite strlen_tres by (reflexivity || apply es_digito_no_NUL, Hd).
    change (char_at _ 0) with "M"%char. change (char_at _ 1) with ","%char.
    change (char_at _ 2) with d.
    rewrite (es_digito_no_menos d Hd).
    cbn [Ascii.eqb Bool.eqb negb desde].
    rewrite <- append_cons. change 0%Z with (Int.wrap 0) at 1.
    rewrite leer_digitos_racha by assumption.
    replace ((2 + String.length (String d ds) =? 2)%nat) with false
      by (symmetry; apply Nat.eqb_neq; cbn [String.length]; lia).
    cbn [orb andb Z.eqb Pos.eqb]. rewrite wrap_signo.
    unfold valor_con_signo, valor. do 3 f_equal. lia.
Qed.

Lemma char_at_desde i : forall l, char_at (desde i l) 0 = char_at l i.
Proof.
  induction i as [|i IH]; intros l.
  - reflexivity.
  - destruct l as [|c l]; [reflexivity|]. cbn [desde]. rewrite IH. reflexivity.
Qed.

Lemma leer_digitos_indice resto : forall a i,
  i <= snd (leer_digitos resto a i) /\
  (snd (leer_digitos resto a i) = i <-> es_digito (char_at resto 0) = false).
Proof.
  induction resto as [|c resto IH]; intros a i.
  - cbn. split; [lia|]. split; reflexivity.
  - cbn [leer_digitos]. change (char_at (String c resto) 0) with c.
    destruct (es_digito c) eqn:Hc.
    + destruct (IH (Int.add (Int.mul a 10) (char_int c - char_int "0")) (S i))
        as [Hle _].
      split; [lia|]. split; [lia | discriminate].
    + cbn [snd]. split; [lia|]. split; reflexivity.
Qed.

Lemma parsearLinea_rechaza linea :
  parsearLinea linea = None <->
  forma_invalida linea || tipo_desconocido linea || sin_numero linea = true.
Proof.
  unfold parsearLinea, forma_invalida, tipo_desconocido, sin_numero.
  destruct (strlen linea <? 3)%nat; [split; reflexivity|].
  destruct (Ascii.eqb (char_at linea 1) ","); [|split; reflexivity].
  destruct (Ascii.eqb_spec (char_at linea 0) "L") as [HL|HL].
  { rewrite HL. cbn. split; discriminate. }
  destruct (Ascii.eqb_spec (char_at linea 0) "M") as [HM|HM];
    [|split; reflexivity].
  cbn [negb orb andb].
  destruct (Ascii.eqb (char_at linea 2) "-").
  - destruct (leer_digitos_indice (desde 3 linea) 0%Z 3) as [Hle Hiff].
    rewrite char_at_desde in Hiff.
    destruct (leer_digitos (desde 3 linea) 0%Z 3) as [numero indice].
    cbn [snd] in *.
    replace (indice =? 2)%nat with false by (symmetry; apply Nat.eqb_neq; lia).
    cbn [orb andb Z.eqb Pos.eqb].
    destruct (Nat.eqb_spec indice 3) as [H3|H3].
    + apply Hiff in H3. rewrite H3. split; reflexivity.
    + destruct (es_digito (char_at linea 3)); [split; discriminate|].
      exfalso. apply H3, Hiff. reflexivity.
  - destruct (leer_digitos_indice (desde 2 linea) 0%Z 2) as [Hle Hiff].
    rewrite char_at_desde in Hiff.
    destruct (leer_digitos (desde 2 linea) 0%Z 2) as [numero indice].
    cbn [snd] in *.
    cbn [orb andb Z.eqb Pos.eqb]. rewrite orb_false_r.
    destruct (Nat.eqb_spec indice 2) as [H2|H2].
    + apply Hiff in H2. rewrite H2. split; reflexivity.
    + destruct (es_digito (char_at linea 2)); [split; discriminate|].
      exfalso. apply H2, Hiff. reflexivity.
Qed.

(** ** The claims on the parser *)

(** C3, as the claim states it, fails: a line with an unknown tag, a
    rotation line without digits and a line of the wrong shape are all
    rejected with the same result, so nothing computed from the result of
    [parsearLinea] can tell the three error kinds apart. *)
Lemma parsearLinea_sin_clases_de_error :
  parsearLinea "X,5" = parsearLinea "M,-" /\
  parsearLinea "M,-" = parsearLinea "AB" /\
  ~ (exists clase : option TramaBase -> ParseError,
       clase (parsearLinea "X,5") = UnknownType /\
       clase (parsearLinea "M,-") = MissingNumber /\
       clase (parsearLinea "AB") = MalformedFrame).
Proof.
  split; [reflexivity|]. split; [reflexivity|].
  intros (clase & H1 & H2 & _).
  change (parsearLinea "X,5") with (@None TramaBase) in H1.
  change (parsearLinea "M,-") with (@None TramaBase) in H2.
  congruence.
Qed.

(** C3, amended.  [parsearLinea] has one rejection, [nullptr], and returns
    it exactly for a line that is shorter than three characters or has no
    comma at position 1, or whose tag is neither 'L' nor 'M', or that is an
    'M' line with no digit after the optional sign.  A rejection is not
    fatal: the loop writes the notice, leaves payload and rotor as they
    were and goes on to the next line. *)
Theorem rechazo_no_fatal (linea : string) (s : Sesion) :
  (parsearLinea linea = None <->
   forma_invalida linea || tipo_desconocido linea || sin_numero linea = true) /\
  (es_trama linea = true -> parsearLinea linea = None ->
   exists s',
     iteracion s linea = Some (s', Continuar) /\
     miListaDeCarga s' = miListaDeCarga s /\
     miRotorDeMapeo s' = miRotorDeMapeo s /\
     cout s' = (cout s ++ "Trama: [" ++ cout_cstr linea ++ "] -> ")
               ++ "ERROR: Trama mal formada" ++ endl).
Proof.
  split; [apply parsearLinea_rechaza|].
  intros Htrama Hnone. unfold es_trama in Htrama.
  apply andb_prop in Htrama as [Htrama Hfin].
  apply andb_prop in Htrama as [Hnul Hini].
  apply negb_true_iff in Hnul, Hini, Hfin.
  unfold iteracion. rewrite Hnul, Hini, Hfin, Hnone.
  eexists. split; [reflexivity|]. repeat split.
Qed.

Lemma rechazo_no_fatal_witness :
  parsearLinea "X,5" = None /\
  exists s',
    iteracion (mkSesion ListaDeCarga.crear (RotorDeMapeo.mk anillo (Some 0)) "") "X,5"
    = Some (s', Continuar) /\
    miListaDeCarga s' = ListaDeCarga.crear /\
    miRotorDeMapeo s' = RotorDeMapeo.mk anillo (Some 0) /\
    cout s' = ("" ++ "Trama: [" ++ cout_cstr "X,5" ++ "] -> ")
              ++ "ERROR: Trama mal formada" ++ endl.
Proof.
  split.
  - apply (proj1 (rechazo_no_fatal "X,5"
             (mkSesion ListaDeCarga.crear (RotorDeMapeo.mk anillo (Some 0)) ""))).
    reflexivity.
  - apply (proj2 (rechazo_no_fatal "X,5"
             (mkSesion ListaDeCarga.crear (RotorDeMapeo.mk anillo (Some 0)) "")));
      reflexivity.
Defined.

(** C4.  ["L,A"], ["M,5"] and ["M,-3"] parse to the load of 'A' and to the
    rotations by 5 and by -3; ["M,"], ["M,-"], ["X,5"] and ["AB"] are
    rejected and give no frame. *)
Theorem parsearLinea_ejemplos :
  parsearLinea "L,A" = Some (TramaLoad "A") /\
  parsearLinea "M,5" = Some (TramaMap 5) /\
  parsearLinea "M,-3" = Some (TramaMap (-3)) /\
  parsearLinea "M," = None /\
  parsearLinea "M,-" = None /\
  parsearLinea "X,5" = None /\
  parsearLinea "AB" = None.
Proof. repeat split. Qed.

(** C10, as the claim states it, fails on a digit run whose value does not
    fit an [int]: the line ["M,2147483648x"] has the shape the claim
    describes and parses to the rotation by -2147483648, not by the value
    2147483648 of its digit run. *)
Lemma linea_M_desborda_con_sufijo :
  todos_digitos "2147483648" = true /\
  no_empieza_con_digito "x" = true /\
  valor_con_signo false "2147483648" = 2147483648%Z /\
  parsearLinea (linea_M false "2147483648" "x") = Some (TramaMap (-2147483648)) /\
  parsearLinea (linea_M false "2147483648" "x")
  <> Some (TramaMap (valor_con_signo false "2147483648")).
Proof.
  split; [reflexivity|]. split; [reflexivity|]. split; [reflexivity|].
  split; [reflexivity|].
  change (parsearLinea (linea_M false "2147483648" "x"))
    with (Some (TramaMap (-2147483648))).
  change (valor_con_signo false "2147483648") with 2147483648%Z.
  intros H. injection H as H. discriminate H.
Qed.

(** C10, amended.  A line made of ["M,"], an optional '-', at least one
    digit and a non-empty suffix that starts with a non-digit parses to the
    rotation by the signed value of the digit run reduced to the 32-bit
    [int] range by wrap-around, the suffix being ignored; that is the signed
    value itself whenever it is in the [int] range. *)
Theorem parsear_M_sufijo (negativo : bool) (digitos sufijo : string) :
  digitos <> "" -> todos_digitos digitos = true ->
  sufijo <> "" -> no_empieza_con_digito sufijo = true ->
  parsearLinea (linea_M negativo digitos sufijo)
  = Some (TramaMap (Int.wrap (valor_con_signo negativo digitos))) /\
  (Int.in_range (valor_con_signo negativo digitos) ->
   parsearLinea (linea_M negativo digitos sufijo)
   = Some (TramaMap (valor_con_signo negativo digitos))).
Proof.
  intros Hne Hds _ Hsuf.
  rewrite parsear_M by assumption.
  split; [reflexivity|].
  intros Hr. rewrite wrap_id by exact Hr. reflexivity.
Qed.

Lemma parsear_M_sufijo_witness :
  parsearLinea "M,5abc" = Some (TramaMap 5) /\
  parsearLinea "M,-12 7" = Some (TramaMap (-12)).
Proof.
  split.
  - apply (proj2 (parsear_M_sufijo false "5" "abc"
                    ltac:(discriminate) eq_refl ltac:(discriminate) eq_refl)).
    split; discriminate.
  - apply (proj2 (parsear_M_sufijo true "12" " 7"
                    ltac:(discriminate) eq_refl ltac:(discriminate) eq_refl)).
    split; discriminate.
Defined.

Lemma linea_M_cabeza negativo digitos sufijo :
  linea_M negativo digitos sufijo
  = String "M" (String "," ((if negativo then "-" else "") ++ digitos ++ sufijo)).
Proof. reflexivity. Qed.

(** C7.  An 'M' line whose digit run has a value beyond the largest [int]
    is parsed, with wrap-around, to a rotation by some [int]; the rotation
    is carried out, the loop goes on to the next line with the payload
    untouched, and the rotor it leaves is a reachable one: the same nodes
    and links, the 26 letters in their cyclic order. *)
Theorem desbordamiento_no_aborta
    (negativo : bool) (digitos sufijo : string) (s : Sesion) :
  digitos <> "" -> todos_digitos digitos = true ->
  no_empieza_con_digito sufijo = true ->
  (valor digitos > Int.MAX)%Z ->
  alcanzable (miRotorDeMapeo s) ->
  exists N r' s',
    parsearLinea (linea_M negativo digitos sufijo) = Some (TramaMap N) /\
    N = Int.wrap (valor_con_signo negativo digitos) /\
    Int.in_range N /\
    RotorDeMapeo.rotar (miRotorDeMapeo s) N = Some r' /\
    iteracion s (linea_M negativo digitos sufijo) = Some (s', Continuar) /\
    miRotorDeMapeo s' = r' /\
    miListaDeCarga s' = miListaDeCarga s /\
    alcanzable r' /\
    anillo_intacto r' /\
    RotorDeMapeo.nodos r' = RotorDeMapeo.nodos (miRotorDeMapeo s).
Proof.
  intros Hne Hds Hsuf _ Hr.
  pose proof (wrap_in_range (valor_con_signo negativo digitos)) as HN.
  set (N := Int.wrap (valor_con_signo negativo digitos)) in *.
  destruct (rotar_bien_formado _ N (alcanzable_bien_formado _ Hr) HN)
    as (r' & Hrot & Hbf).
  assert (Hr' : alcanzable r').
  { apply (alcanzable_paso (miRotorDeMapeo s) (OpRotar N)); assumption. }
  exists N, r'.
  eexists. split; [apply parsear_M; assumption|].
  split; [reflexivity|]. split; [exact HN|]. split; [exact Hrot|].
  split.
  - unfold iteracion. rewrite parsear_M by assumption. fold N.
    rewrite linea_M_cabeza.
    change (char_at (String "M" _) 0) with "M"%char.
    cbn [Ascii.eqb Bool.eqb andb].
    unfold procesar. cbn [escribir miRotorDeMapeo miListaDeCarga cout].
    rewrite Hrot. reflexivity.
  - split; [reflexivity|]. split; [reflexivity|]. split; [exact Hr'|].
    split; [apply anillo_intacto_bien_formado, Hbf|].
    destruct Hbf as [-> _].
    destruct (alcanzable_bien_formado _ Hr) as [-> _]. reflexivity.
Qed.

Lemma desbordamiento_no_aborta_witness :
  exists N r' s',
    parsearLinea (linea_M false "4294967297" "") = Some (TramaMap N) /\
    N = Int.wrap (valor_con_signo false "4294967297") /\
    Int.in_range N /\
    RotorDeMapeo.rotar (RotorDeMapeo.mk anillo (Some 0)) N = Some r' /\
    iteracion (mkSesion ListaDeCarga.crear (RotorDeMapeo.mk anillo (Some 0)) "")
      (linea_M false "4294967297" "") = Some (s', Continuar) /\
    miRotorDeMapeo s' = r' /\
    miListaDeCarga s' = ListaDeCarga.crear /\
    alcanzable r' /\
    anillo_intacto r' /\
    RotorDeMapeo.nodos r' = anillo.
Proof.
  apply (desbordamiento_no_aborta false "4294967297" ""
           (mkSesion ListaDeCarga.crear (RotorDeMapeo.mk anillo (Some 0)) "")).
  - discriminate.
  - reflexivity.
  - reflexivity.
  - reflexivity.
  - apply alcanzable_crear, crear_anillo.
Defined.

(** ** The payload list *)

Section Carga.
Import ListaDeCarga.

Lemma ptr_de_lt n i : i < n -> ptr_de n i = Some i.
Proof.
  intros H. unfold ptr_de.
  destruct (Nat.ltb_spec i n); [reflexivity | lia].
Qed.

Lemma ptr_de_ge n i : n <= i -> ptr_de n i = nullptr.
Proof.
  intros H. unfold ptr_de.
  destruct (Nat.ltb_spec i n); [lia | reflexivity].
Qed.

Lemma crear_lista_de : crear = lista_de [].
Proof. reflexivity. Qed.

(** Appending to the list built from [cs] gives the list built from [cs]
    followed by the new character. *)
Lemma insertar_lista_de cs c :
  insertarAlFinal (lista_de cs) c = Some (lista_de (cs ++ [c])%list).
Proof.
  destruct (length cs) as [|m] eqn:Hlen.
  { destruct cs; [reflexivity | discriminate]. }
  assert (Hm : m < length cs) by lia.
  destruct (lookup_lt_is_Some_2 cs m Hm) as [cm Hcm].
  unfold insertarAlFinal, nuevo, lista_de.
  cbn [nodos cabeza cola].
  rewrite length_imap, length_app, Hlen. cbn [length].
  rewrite Nat.add_1_r, (ptr_de_lt (S m) 0), (ptr_de_lt (S (S m)) 0) by lia.
  unfold asignar_siguiente. cbn [mbind option_bind].
  rewrite lookup_app_l by (rewrite length_imap; lia).
  rewrite list_lookup_imap, Hcm. cbn [fmap option_fmap option_map mbind option_bind].
  unfold asignar_previo. cbn [mbind option_bind].
  rewrite list_lookup_insert_ne by lia.
  rewrite lookup_app_r by (rewrite length_imap; lia).
  rewrite length_imap, Hlen, Nat.sub_diag.
  cbn [lookup list_lookup mbind option_bind dato siguiente previo nodo_de].
  do 2 f_equal. apply list_eq. intros i.
  rewrite list_lookup_imap.
  destruct (Nat.eq_dec i (S m)) as [->|Hi1].
  - rewrite list_lookup_insert_eq
      by (rewrite length_insert, length_app, length_imap; cbn [length]; lia).
    rewrite lookup_app_r by lia. rewrite Hlen, Nat.sub_diag.
    cbn [lookup list_lookup fmap option_fmap option_map]. unfold nodo_de.
    rewrite (ptr_de_ge (S (S m))) by lia. reflexivity.
  - rewrite list_lookup_insert_ne by lia.
    destruct (Nat.eq_dec i m) as [->|Hi2].
    + rewrite list_lookup_insert_eq
        by (rewrite length_app, length_imap; cbn [length]; lia).
      rewrite lookup_app_l, Hcm by lia.
      cbn [fmap option_fmap option_map]. unfold nodo_de.
      cbn [dato previo].
      rewrite (ptr_de_lt (S (S m))) by lia. reflexivity.
    + rewrite list_lookup_insert_ne by lia.
      destruct (Nat.lt_ge_cases i m) as [Hlt|Hge].
      * rewrite !lookup_app_l by (rewrite ?length_imap; lia).
        rewrite list_lookup_imap.
        destruct (cs !! i) as [ci|]; [|reflexivity].
        cbn [fmap option_fmap option_map]. unfold nodo_de.
        rewrite (ptr_de_lt (S m)), (ptr_de_lt (S (S m))) by lia. reflexivity.
      * rewrite !lookup_ge_None_2; [reflexivity| |].
        -- rewrite length_app. cbn [length]. lia.
        -- rewrite length_app, length_imap. cbn [length]. lia.
Qed.

Lemma insertarTodos_lista_de cs : forall cs0,
  insertarTodos (lista_de cs0) cs = Some (lista_de (cs0 ++ cs)%list).
Proof.
  induction cs as [|c cs IH]; intros cs0; cbn [insertarTodos].
  - rewrite app_nil_r. reflexivity.
  - rewrite insertar_lista_de. cbn [mbind option_bind].
    rewrite IH, <- app_assoc. reflexivity.
Qed.

(** The walk over the list built from [cs], from address [i] on, with at
    least as much fuel as there are nodes left. *)
Lemma recorrer_lista_de cs fuel : forall i,
  length cs - i <= fuel ->
  recorrer fuel (imap (nodo_de (length cs)) cs) (ptr_de (length cs) i)
  = Some (string_of_list_ascii (drop i cs)).
Proof.
  induction fuel as [|fuel IH]; intros i Hf.
  - rewrite ptr_de_ge, drop_ge by lia. reflexivity.
  - destruct (Nat.lt_ge_cases i (length cs)) as [Hlt|Hge].
    + rewrite ptr_de_lt by exact Hlt.
      destruct (lookup_lt_is_Some_2 cs i Hlt) as [ci Hci].
      cbn [recorrer]. rewrite list_lookup_imap, Hci.
      cbn [fmap option_fmap option_map mbind option_bind siguiente dato nodo_de].
      rewrite IH by lia. cbn [mbind option_bind].
      rewrite (drop_S _ _ _ Hci). reflexivity.
    + rewrite ptr_de_ge, drop_ge by lia. reflexivity.
Qed.

Lemma mensaje_lista_de cs : mensaje (lista_de cs) = Some (string_of_list_ascii cs).
Proof.
  unfold mensaje, lista_de. cbn [nodos cabeza].
  rewrite length_imap, recorrer_lista_de by lia. reflexivity.
Qed.
End Carga.

(** C9.  After appending the characters of [cs] in order to an empty list,
    the message is exactly [cs], and [imprimirMensaje] writes it followed
    by the end of line; with nothing appended the message is empty. *)
Theorem imprimirMensaje_en_orden (cs : list ascii) :
  (exists l,
     insertarTodos ListaDeCarga.crear cs = Some l /\
     ListaDeCarga.mensaje l = Some (string_of_list_ascii cs) /\
     ListaDeCarga.imprimirMensaje l = Some (string_of_list_ascii cs ++ endl)) /\
  ListaDeCarga.mensaje ListaDeCarga.crear = Some "" /\
  ListaDeCarga.imprimirMensaje ListaDeCarga.crear = Some endl.
Proof.
  split; [|split; reflexivity].
  exists (lista_de cs). rewrite crear_lista_de, insertarTodos_lista_de.
  split; [reflexivity|].
  unfold ListaDeCarga.imprimirMensaje. rewrite mensaje_lista_de.
  split; reflexivity.
Qed.

(** ** The session *)

(** C8.  On the lines ["I"], ["L,A"], ["M,1"], ["L,A"], ["FIN"], with a
    newly constructed rotor (head at 'A') and an empty payload, the first
    ["L,A"] is decoded to 'A', the second, after the rotation by 1, to 'B',
    the loop ends at ["FIN"] and the message written is ["AB"]. *)
Theorem sesion_AB :
  exists r0 r1 s,
    RotorDeMapeo.crear = Some r0 /\
    posicion_cabeza r0 = Some 0 /\
    RotorDeMapeo.getMapeo r0 "A" = Some "A"%char /\
    RotorDeMapeo.rotar r0 1 = Some r1 /\
    RotorDeMapeo.getMapeo r1 "A" = Some "B"%char /\
    bucle ["I"; "L,A"; "M,1"; "L,A"; "FIN"] (mkSesion ListaDeCarga.crear r0 "")
    = Some (s, Romper) /\
    miRotorDeMapeo s = r1 /\
    ListaDeCarga.mensaje (miListaDeCarga s) = Some "AB" /\
    sesion ["I"; "L,A"; "M,1"; "L,A"; "FIN"]
    = Some ("--- Inicio de transmision ---" ++ endl ++ endl
            ++ "Trama: [L,A] -> Fragmento 'A' decodificado como 'A'." ++ endl ++ endl
            ++ "Trama: [M,1] -> ROTANDO ROTOR +1" ++ endl ++ endl
            ++ "Trama: [L,A] -> Fragmento 'A' decodificado como 'B'." ++ endl ++ endl
            ++ endl ++ "--- Fin de transmision ---" ++ endl
            ++ "  --- Mensaje Decodificado ---:" ++ endl
            ++ "AB" ++ endl
            ++ endl ++ "Sistema apagado correctamente." ++ endl).
Proof.
  exists (RotorDeMapeo.mk anillo (Some 0)), (RotorDeMapeo.mk anillo (Some 1)).
  eexists. split; [apply crear_anillo|].
  do 4 (split; [reflexivity|]).
  split; [vm_compute; reflexivity|].
  split; [reflexivity|]. split; vm_compute; reflexivity.
Qed.

(** * Further properties of the code *)

(** ** The rotor *)

Lemma char_int_letra i : i < 26 -> char_int (letra_en_posicion i) = (65 + Z.of_nat i)%Z.
Proof.
  intros Hi.
  do 26 (destruct i as [|i]; [reflexivity|]). lia.
Qed.

Lemma char_int_inj c d : char_int c = char_int d -> c = d.
Proof.
  unfold char_int. intros H.
  pose proof (nat_ascii_bounded c) as Hc. pose proof (nat_ascii_bounded d) as Hd.
  rewrite <- (ascii_nat_embedding c), <- (ascii_nat_embedding d). f_equal.
  destruct (Z.ltb_spec (Z.of_nat (nat_of_ascii c)) 128),
           (Z.ltb_spec (Z.of_nat (nat_of_ascii d)) 128); lia.
Qed.

Lemma bien_formado_eq r :
  bien_formado r -> exists k, k < 26 /\ r = RotorDeMapeo.mk anillo (Some k).
Proof.
  intros [Hn (k & Hc & Hk)]. exists k. split; [exact Hk|].
  destruct r; simpl in *; subst; reflexivity.
Qed.

(** X1.  On a reachable rotor, rotating by an [int] other than the most
    negative one and then by its opposite gives back the very same rotor. *)
Theorem rotar_ida_y_vuelta (r : RotorDeMapeo.t) (N : Z) :
  alcanzable r -> Int.in_range N -> N <> Int.MIN ->
  exists r1,
    RotorDeMapeo.rotar r N = Some r1 /\
    RotorDeMapeo.rotar r1 (- N) = Some r.
Proof.
  intros Hr HN Hmin.
  destruct (bien_formado_eq r (alcanzable_bien_formado r Hr)) as (k & Hk & ->).
  pose proof (Z.mod_pos_bound (Z.of_nat k + N) 26 ltac:(lia)) as Hb.
  eexists. split.
  - apply (rotar_mueve _ k N); [reflexivity | reflexivity | exact Hk | exact HN | exact Hmin].
  - rewrite (rotar_mueve _ (Z.to_nat ((Z.of_nat k + N) mod 26)) (- N));
      [ | reflexivity | reflexivity | lia
        | unfold Int.in_range, Int.MIN, Int.MAX in *; lia
        | unfold Int.in_range, Int.MIN, Int.MAX in *; lia ].
    rewrite Z2Nat.id by lia.
    rewrite Zplus_mod_idemp_l.
    replace (Z.of_nat k + N + - N)%Z with (Z.of_nat k) by lia.
    rewrite Z.mod_small by lia. rewrite Nat2Z.id. reflexivity.
Qed.

Lemma rotar_ida_y_vuelta_witness :
  exists r1,
    RotorDeMapeo.rotar (RotorDeMapeo.mk anillo (Some 3)) (-30) = Some r1 /\
    RotorDeMapeo.rotar r1 (- (-30)) = Some (RotorDeMapeo.mk anillo (Some 3)).
Proof.
  apply (rotar_ida_y_vuelta _ (-30) alcanzable_tres).
  - unfold Int.in_range, Int.MIN, Int.MAX. lia.
  - discriminate.
Defined.

(** X2.  A sequence of rotations of a reachable rotor, none of them by the
    most negative [int], never fails, keeps the nodes and moves the head
    position by the sum of the amounts modulo 26. *)
Theorem rotar_todas_compone (r : RotorDeMapeo.t) (Ns : list Z) :
  alcanzable r ->
  Forall (fun N => Int.in_range N /\ N <> Int.MIN) Ns ->
  exists k r',
    posicion_cabeza r = Some k /\
    rotar_todas r Ns = Some r' /\
    RotorDeMapeo.nodos r' = RotorDeMapeo.nodos r /\
    posicion_cabeza r' = Some (Z.to_nat ((Z.of_nat k + suma Ns) mod 26)).
Proof.
  intros Hr HNs.
  destruct (alcanzable_bien_formado r Hr) as [Hn (k & Hc & Hk)].
  exists k. eexists.
  split; [apply posicion_cabeza_anillo; assumption|].
  split; [exact (rotar_todas_suma Ns r k Hn Hc Hk HNs)|].
  split; [symmetry; exact Hn|].
  pose proof (Z.mod_pos_bound (Z.of_nat k + suma Ns) 26 ltac:(lia)).
  apply posicion_cabeza_anillo; [reflexivity | reflexivity | lia].
Qed.

Lemma rotar_todas_compone_witness :
  exists k r',
    posicion_cabeza (RotorDeMapeo.mk anillo (Some 3)) = Some k /\
    rotar_todas (RotorDeMapeo.mk anillo (Some 3)) [40; -7; 0]%Z = Some r' /\
    RotorDeMapeo.nodos r' = anillo /\
    posicion_cabeza r' = Some (Z.to_nat ((Z.of_nat k + suma [40; -7; 0]%Z) mod 26)).
Proof.
  apply (rotar_todas_compone _ [40; -7; 0]%Z alcanzable_tres).
  repeat constructor; unfold Int.MIN, Int.MAX; lia.
Defined.

(** X3.  In a reachable rotor state [getMapeo] permutes the letters: a
    letter decodes to a letter, two different letters never decode to the
    same one, and every letter is the decoding of some letter. *)
Theorem getMapeo_permuta_letras (r : RotorDeMapeo.t) :
  alcanzable r ->
  (forall c, es_letra c ->
     exists d, RotorDeMapeo.getMapeo r c = Some d /\ es_letra d) /\
  (forall c1 c2, es_letra c1 -> es_letra c2 ->
     RotorDeMapeo.getMapeo r c1 = RotorDeMapeo.getMapeo r c2 -> c1 = c2) /\
  (forall d, es_letra d ->
     exists c, es_letra c /\ RotorDeMapeo.getMapeo r c = Some d).
Proof.
  intros Hr.
  destruct (alcanzable_bien_formado r Hr) as [Hn (k & Hc & Hk)].
  unfold es_letra. change (char_int "A") with 65%Z. change (char_int "Z") with 90%Z.
  split; [|split].
  - intros c Hl. eexists.
    split; [apply (getMapeo_letra r k c Hn Hc Hk Hl)|].
    pose proof (Nat.mod_upper_bound (k + Z.to_nat (char_int c - char_int "A")) 26
                  ltac:(lia)) as Hb.
    rewrite char_int_letra by exact Hb. lia.
  - intros c1 c2 H1 H2.
    rewrite (getMapeo_letra r k c1 Hn Hc Hk H1), (getMapeo_letra r k c2 Hn Hc Hk H2).
    change (char_int "A") with 65%Z.
    intros Heq. apply (inj Some) in Heq. apply (f_equal char_int) in Heq.
    rewrite !char_int_letra in Heq by (apply Nat.mod_upper_bound; lia).
    apply char_int_inj.
    assert (Hz : forall p, p < 26 -> (k + p) mod 26 = if (k + p <? 26)%nat then k + p else k + p - 26).
    { intros p Hp. destruct (Nat.ltb_spec (k + p) 26).
      - apply Nat.mod_small; lia.
      - rewrite <- (Nat.mod_small (k + p - 26) 26) by lia.
        replace (k + p) with (k + p - 26 + 1 * 26) at 1 by lia.
        apply Nat.Div0.mod_add. }
    rewrite !Hz in Heq by lia.
    destruct (Nat.ltb_spec (k + Z.to_nat (char_int c1 - 65)) 26),
             (Nat.ltb_spec (k + Z.to_nat (char_int c2 - 65)) 26); lia.
  - intros d Hd.
    set (q := Z.to_nat (char_int d - 65)).
    set (p := (q + 26 - k) mod 26).
    assert (Hp : p < 26) by (apply Nat.mod_upper_bound; lia).
    assert (Hcp : char_int (letra_en_posicion p) = (65 + Z.of_nat p)%Z)
      by (apply char_int_letra, Hp).
    exists (letra_en_posicion p).
    assert (Hl : (char_int "A" <= char_int (letra_en_posicion p) <= char_int "Z")%Z).
    { change (char_int "A") with 65%Z. change (char_int "Z") with 90%Z. lia. }
    split; [change (char_int "A") with 65%Z in Hl; change (char_int "Z") with 90%Z in Hl; exact Hl|].
    rewrite (getMapeo_letra r k _ Hn Hc Hk Hl).
    change (char_int "A") with 65%Z. rewrite Hcp.
    replace (Z.to_nat (65 + Z.of_nat p - 65)) with p by lia.
    f_equal. apply char_int_inj.
    rewrite char_int_letra by (apply Nat.mod_upper_bound; lia).
    unfold p. rewrite Nat.Div0.add_mod_idemp_r.
    replace (k + (q + 26 - k)) with (q + 1 * 26) by lia.
    rewrite Nat.Div0.mod_add, Nat.mod_small by lia. lia.
Qed.

Lemma getMapeo_permuta_letras_witness :
  (exists d, RotorDeMapeo.getMapeo (RotorDeMapeo.mk anillo (Some 3)) "Y" = Some d /\ es_letra d) /\
  (exists c, es_letra c /\ RotorDeMapeo.getMapeo (RotorDeMapeo.mk anillo (Some 3)) c = Some "A"%char).
Proof.
  split.
  - apply (proj1 (getMapeo_permuta_letras _ alcanzable_tres)). split; discriminate.
  - apply (proj2 (proj2 (getMapeo_permuta_letras _ alcanzable_tres))). split; discriminate.
Defined.

(** X4.  Rotating shifts the decoding: after a rotation by [N], other than
    the most negative [int], a letter decodes to what the letter [N] places
    further on in the alphabet, cyclically, decoded to before. *)
Theorem getMapeo_tras_rotar (r : RotorDeMapeo.t) (N : Z) (c : ascii) :
  alcanzable r -> Int.in_range N -> N <> Int.MIN -> es_letra c ->
  exists r',
    RotorDeMapeo.rotar r N = Some r' /\
    RotorDeMapeo.getMapeo r' c
    = RotorDeMapeo.getMapeo r
        (letra_en_posicion (Z.to_nat ((char_int c - char_int "A" + N) mod 26))).
Proof.
  intros Hr HN Hmin Hl.
  destruct (bien_formado_eq r (alcanzable_bien_formado r Hr)) as (k & Hk & ->).
  pose proof (Z.mod_pos_bound (Z.of_nat k + N) 26 ltac:(lia)) as Hb.
  pose proof (Z.mod_pos_bound (char_int c - char_int "A" + N) 26 ltac:(lia)) as Hq.
  eexists. split.
  - apply (rotar_mueve _ k N); [reflexivity | reflexivity | exact Hk | exact HN | exact Hmin].
  - set (q := Z.to_nat ((char_int c - char_int "A" + N) mod 26)) in *.
    assert (Hq26 : q < 26) by (unfold q; lia).
    assert (Hcq : char_int (letra_en_posicion q) = (65 + Z.of_nat q)%Z)
      by (apply char_int_letra, Hq26).
    rewrite (getMapeo_letra _ (Z.to_nat ((Z.of_nat k + N) mod 26)) c);
      [ | reflexivity | reflexivity | lia | exact Hl ].
    rewrite (getMapeo_letra _ k (letra_en_posicion q));
      [ | reflexivity | reflexivity | exact Hk
        | change (char_int "A") with 65%Z; change (char_int "Z") with 90%Z; lia ].
    do 2 f_equal. apply Nat2Z.inj. rewrite !Nat2Z.inj_mod, !Nat2Z.inj_add.
    rewrite Hcq. unfold es_letra in Hl. change (char_int "A") with 65%Z in *.
    rewrite !Z2Nat.id by lia.
    replace (65 + Z.of_nat q - 65)%Z with (Z.of_nat q) by lia.
    unfold q. rewrite Z2Nat.id by lia.
    rewrite Zplus_mod_idemp_l, Zplus_mod_idemp_r. f_equal. lia.
Qed.

Lemma getMapeo_tras_rotar_witness :
  exists r',
    RotorDeMapeo.rotar (RotorDeMapeo.mk anillo (Some 3)) (-5) = Some r' /\
    RotorDeMapeo.getMapeo r' "C"
    = RotorDeMapeo.getMapeo (RotorDeMapeo.mk anillo (Some 3))
        (letra_en_posicion (Z.to_nat ((char_int "C" - char_int "A" + -5) mod 26))).
Proof.
  apply (getMapeo_tras_rotar _ (-5) "C" alcanzable_tres).
  - unfold Int.in_range, Int.MIN, Int.MAX. lia.
  - discriminate.
  - split; discriminate.
Defined.

(** X5.  The destructor of a reachable rotor ends without reading or
    deleting a deleted node, and deletes every node of the ring exactly
    once. *)
Theorem destruir_RotorDeMapeo_libera_todo (r : RotorDeMapeo.t) :
  alcanzable r ->
  exists liberados,
    destruir_RotorDeMapeo r = Some liberados /\
    NoDup liberados /\
    (forall a, a ∈ liberados <-> a < length (RotorDeMapeo.nodos r)).
Proof.
  intros Hr.
  destruct (bien_formado_eq r (alcanzable_bien_formado r Hr)) as (k & Hk & ->).
  assert (H : exists liberados,
             destruir_RotorDeMapeo (RotorDeMapeo.mk anillo (Some k)) = Some liberados /\
             NoDup liberados /\
             Forall (fun a => a < 26) liberados /\
             Forall (fun a => a ∈ liberados) (seq 0 26)).
  { do 26 (destruct k as [|k];
           [eexists; split; [vm_compute; reflexivity|];
            split; [|split];
            (refine (bool_decide_unpack _ _); vm_compute; exact I)|]).
    lia. }
  destruct H as (l & Hd & Hnd & Hlt & Hin).
  exists l. split; [exact Hd|]. split; [exact Hnd|].
  intros a. change (length (RotorDeMapeo.nodos (RotorDeMapeo.mk anillo (Some k)))) with 26.
  split.
  - intros Ha. rewrite Forall_forall in Hlt. apply Hlt, Ha.
  - intros Ha. rewrite Forall_forall in Hin. apply Hin, elem_of_seq. lia.
Qed.

Lemma destruir_RotorDeMapeo_libera_todo_witness :
  exists liberados,
    destruir_RotorDeMapeo (RotorDeMapeo.mk anillo (Some 3)) = Some liberados /\
    NoDup liberados /\
    (forall a, a ∈ liberados <-> a < length anillo).
Proof. exact (destruir_RotorDeMapeo_libera_todo _ alcanzable_tres). Defined.

(** ** The payload list *)

Lemma previo_nodo_de n i c :
  ListaDeCarga.previo (nodo_de n i c) = match i with O => nullptr | S j => Some j end.
Proof. reflexivity. Qed.

Lemma siguiente_nodo_de n i c : ListaDeCarga.siguiente (nodo_de n i c) = ptr_de n (S i).
Proof. reflexivity. Qed.

Lemma dato_nodo_de n i c : ListaDeCarga.dato (nodo_de n i c) = c.
Proof. reflexivity. Qed.

Lemma recorrer_atras_lista_de cs fuel : forall i,
  i <= length cs -> i <= fuel ->
  recorrer_atras fuel (imap (nodo_de (length cs)) cs)
    (match i with O => nullptr | S j => Some j end)
  = Some (reverse (take i cs)).
Proof.
  induction fuel as [|fuel IH]; intros i Hi Hf.
  - replace i with 0 by lia. reflexivity.
  - destruct i as [|j]; [reflexivity|].
    destruct (lookup_lt_is_Some_2 cs j ltac:(lia)) as [cj Hcj].
    cbn [recorrer_atras]. rewrite list_lookup_imap, Hcj.
    cbn [fmap option_fmap option_map mbind option_bind].
    rewrite previo_nodo_de, dato_nodo_de.
    rewrite (IH j) by lia. cbn [mbind option_bind].
    rewrite (take_S_r _ _ _ Hcj), reverse_snoc. reflexivity.
Qed.

(** X6.  The list [insertarAlFinal] builds is linked consistently in both
    directions: walking back from [cola] along [previo] reads the appended
    characters in reverse order and ends at [nullptr]. *)
Theorem previo_recorre_al_reves (cs : list ascii) :
  exists l,
    insertarTodos ListaDeCarga.crear cs = Some l /\
    recorrer_atras (length (ListaDeCarga.nodos l)) (ListaDeCarga.nodos l)
      (ListaDeCarga.cola l)
    = Some (reverse cs).
Proof.
  exists (lista_de cs). rewrite crear_lista_de, insertarTodos_lista_de.
  split; [reflexivity|].
  unfold lista_de. cbn [ListaDeCarga.nodos ListaDeCarga.cola].
  rewrite length_imap.
  rewrite (recorrer_atras_lista_de cs (length cs) (length cs)) by lia.
  rewrite firstn_all. reflexivity.
Qed.

Lemma liberar_lista_de cs fuel : forall i,
  i <= length cs -> length cs - i <= fuel ->
  liberar ListaDeCarga.siguiente fuel (imap (nodo_de (length cs)) cs)
    (reverse (seq 0 i)) (ptr_de (length cs) i)
  = Some (reverse (seq 0 (length cs))).
Proof.
  induction fuel as [|fuel IH]; intros i Hi Hf.
  - replace i with (length cs) by lia. rewrite ptr_de_ge by lia. reflexivity.
  - destruct (Nat.eq_dec i (length cs)) as [->|Hne].
    { rewrite ptr_de_ge by lia. reflexivity. }
    rewrite ptr_de_lt by lia.
    destruct (lookup_lt_is_Some_2 cs i ltac:(lia)) as [ci Hci].
    cbn [liberar].
    rewrite bool_decide_eq_false_2
      by (rewrite elem_of_reverse, elem_of_seq; lia).
    rewrite list_lookup_imap, Hci.
    cbn [fmap option_fmap option_map mbind option_bind].
    rewrite siguiente_nodo_de.
    replace (i :: reverse (seq 0 i)) with (reverse (seq 0 (S i)))
      by (rewrite seq_S, reverse_snoc; reflexivity).
    apply IH; lia.
Qed.

(** X7.  The destructor of a list built with [insertarAlFinal] ends
    without reading or deleting a deleted node, and deletes every node
    exactly once; on the empty list it deletes nothing. *)
Theorem destruir_ListaDeCarga_libera_todo (cs : list ascii) :
  exists l liberados,
    insertarTodos ListaDeCarga.crear cs = Some l /\
    destruir_ListaDeCarga l = Some liberados /\
    NoDup liberados /\
    (forall a, a ∈ liberados <-> a < length (ListaDeCarga.nodos l)) /\
    length (ListaDeCarga.nodos l) = length cs.
Proof.
  exists (lista_de cs), (reverse (seq 0 (length cs))).
  rewrite crear_lista_de, insertarTodos_lista_de.
  split; [reflexivity|].
  unfold destruir_ListaDeCarga, lista_de.
  cbn [ListaDeCarga.nodos ListaDeCarga.cabeza]. rewrite length_imap.
  split.
  - apply (liberar_lista_de cs (length cs) 0); lia.
  - split; [rewrite reverse_Permutation; apply NoDup_seq|].
    split; [|reflexivity].
    intros a. rewrite elem_of_reverse, elem_of_seq. lia.
Qed.

(** ** The parser and the terminator *)

Lemma strlen_cstr l : strlen (cout_cstr l) = strlen l.
Proof.
  induction l as [|c l IH]; [reflexivity|]. cbn [cout_cstr strlen].
  destruct (Ascii.eqb c NUL) eqn:Hc; [reflexivity|].
  cbn [strlen]. rewrite Hc, IH. reflexivity.
Qed.

Lemma cstr_idem l : cout_cstr (cout_cstr l) = cout_cstr l.
Proof.
  induction l as [|c l IH]; [reflexivity|]. cbn [cout_cstr].
  destruct (Ascii.eqb c NUL) eqn:Hc; [reflexivity|].
  cbn [cout_cstr]. rewrite Hc, IH. reflexivity.
Qed.

Lemma char_at_cons_S c l i : char_at (String c l) (S i) = char_at l i.
Proof. reflexivity. Qed.

Lemma char_at_cstr l : forall i,
  i <= strlen l -> char_at (cout_cstr l) i = char_at l i.
Proof.
  induction l as [|c l IH]; intros i Hi; [reflexivity|].
  cbn [cout_cstr strlen] in *.
  destruct (Ascii.eqb_spec c NUL) as [->|Hc].
  - replace i with 0 by lia. reflexivity.
  - destruct i as [|i]; [reflexivity|].
    rewrite !char_at_cons_S. apply IH. lia.
Qed.

Lemma desde_cstr l : forall i,
  i <= strlen l -> desde i (cout_cstr l) = cout_cstr (desde i l).
Proof.
  induction l as [|c l IH]; intros i Hi.
  - destruct i; reflexivity.
  - cbn [cout_cstr strlen] in *.
    destruct (Ascii.eqb_spec c NUL) as [->|Hc].
    + replace i with 0 by lia. reflexivity.
    + destruct i as [|i].
      * cbn [desde cout_cstr]. destruct (Ascii.eqb_spec c NUL); [contradiction | reflexivity].
      * cbn [desde]. apply IH. lia.
Qed.

Lemma leer_digitos_cstr resto : forall a j,
  leer_digitos (cout_cstr resto) a j = leer_digitos resto a j.
Proof.
  induction resto as [|c resto IH]; intros a j; [reflexivity|].
  cbn [cout_cstr leer_digitos].
  destruct (Ascii.eqb_spec c NUL) as [->|Hc]; [reflexivity|].
  cbn [leer_digitos]. destruct (es_digito c); [apply IH | reflexivity].
Qed.

Lemma parsearLinea_cstr linea : parsearLinea (cout_cstr linea) = parsearLinea linea.
Proof.
  unfold parsearLinea. rewrite strlen_cstr.
  destruct (Nat.ltb_spec (strlen linea) 3) as [|H3]; [reflexivity|].
  rewrite !char_at_cstr by lia.
  destruct (Ascii.eqb (char_at linea 1) ","); [|reflexivity]. cbn [negb].
  destruct (Ascii.eqb (char_at linea 0) "L"); [reflexivity|].
  destruct (Ascii.eqb (char_at linea 0) "M"); [|reflexivity].
  destruct (Ascii.eqb (char_at linea 2) "-");
    rewrite desde_cstr, leer_digitos_cstr by lia; reflexivity.
Qed.

Lemma iteracion_cstr s linea : iteracion s (cout_cstr linea) = iteracion s linea.
Proof.
  unfold iteracion.
  rewrite parsearLinea_cstr, cstr_idem, (char_at_cstr linea 0) by lia.
  destruct (Ascii.eqb_spec (char_at linea 0) NUL) as [|H0]; [reflexivity|].
  destruct (Ascii.eqb (char_at linea 0) "I"); [reflexivity|].
  assert (Hfin :
    Ascii.eqb (char_at linea 0) "F" && Ascii.eqb (char_at linea 1) "I"
      && Ascii.eqb (char_at linea 2) "N"
    = Ascii.eqb (char_at linea 0) "F" && Ascii.eqb (char_at (cout_cstr linea) 1) "I"
      && Ascii.eqb (char_at (cout_cstr linea) 2) "N").
  { destruct linea as [|c0 [|c1 l]].
    - reflexivity.
    - cbn [cout_cstr]. destruct (Ascii.eqb c0 NUL); reflexivity.
    - assert (Hc0 : Ascii.eqb c0 NUL = false)
        by (destruct (Ascii.eqb_spec c0 NUL); [contradiction | reflexivity]).
      destruct (Ascii.eqb_spec c1 NUL) as [->|Hc1].
      + cbn [cout_cstr]. rewrite Hc0. cbn [cout_cstr Ascii.eqb Bool.eqb].
        change (char_at (String c0 (String NUL l)) 1) with NUL.
        change (char_at (String c0 "") 1) with NUL.
        cbn [Ascii.eqb Bool.eqb andb]. rewrite !andb_false_r. reflexivity.
      + rewrite !(char_at_cstr (String c0 (String c1 l))); [reflexivity| |].
        * cbn [strlen]. rewrite Hc0.
          destruct (Ascii.eqb_spec c1 NUL); [contradiction | lia].
        * cbn [strlen]. rewrite Hc0.
          destruct (Ascii.eqb_spec c1 NUL); [contradiction | lia]. }
  rewrite Hfin. reflexivity.
Qed.

(** X8.  Neither the parser nor the loop body looks past the terminator of
    the buffer: whatever bytes follow the first NUL, a line is handled as
    the text before it. *)
Theorem terminador_delimita (linea : string) (s : Sesion) :
  parsearLinea linea = parsearLinea (cout_cstr linea) /\
  iteracion s linea = iteracion s (cout_cstr linea).
Proof.
  split.
  - symmetry. apply parsearLinea_cstr.
  - symmetry. apply iteracion_cstr.
Qed.

(** ** leerLineaSerial *)

Section Serial.
Local Open Scope list_scope.

Lemma escribir_buffer_medio pre p post c :
  escribir_buffer (pre ++ p :: post) (length pre) c = Some (pre ++ c :: post).
Proof.
  unfold escribir_buffer.
  destruct (Nat.ltb_spec (length pre) (length (pre ++ p :: post))) as [_|H].
  - rewrite insert_app_r_alt, Nat.sub_diag by lia. reflexivity.
  - rewrite length_app in H. cbn [length] in H. lia.
Qed.

Lemma leer_desde_cons_None lecturas buffer posicion maxLen :
  (Z.of_nat posicion < Int.add maxLen (-1))%Z ->
  leer_desde (None :: lecturas) buffer posicion maxLen
  = leer_desde lecturas buffer posicion maxLen.
Proof.
  intros H. cbn [leer_desde].
  destruct (Z.ltb_spec (Z.of_nat posicion) (Int.add maxLen (-1))); [reflexivity | lia].
Qed.

Lemma leer_desde_salto_inicial c lecturas buffer maxLen :
  (0 < Int.add maxLen (-1))%Z -> es_salto c = true ->
  leer_desde (Some c :: lecturas) buffer 0 maxLen
  = leer_desde lecturas buffer 0 maxLen.
Proof.
  intros H Hc. cbn [leer_desde]. rewrite Hc.
  destruct (Z.ltb_spec (Z.of_nat 0) (Int.add maxLen (-1))); [reflexivity | lia].
Qed.

(** Reading the bytes of a piece of text that fits: they go into the
    buffer one after the other. *)
Lemma leer_desde_datos datos : forall pre post resto maxLen,
  length datos <= length post ->
  (Z.of_nat (length pre + length datos) <= Int.add maxLen (-1))%Z ->
  Forall (fun c => es_salto c = false) datos ->
  leer_desde (map Some datos ++ resto) (pre ++ post) (length pre) maxLen
  = leer_desde resto ((pre ++ datos) ++ drop (length datos) post)
      (length pre + length datos) maxLen.
Proof.
  induction datos as [|c datos IH]; intros pre post resto maxLen Hlen Hlim Hns.
  - cbn [map app length drop]. rewrite app_nil_r, Nat.add_0_r. reflexivity.
  - destruct post as [|p post]; [cbn [length] in Hlen; lia|].
    apply Forall_cons in Hns as [Hc Hns].
    cbn [length] in Hlen, Hlim.
    cbn [map app leer_desde]. rewrite Hc, escribir_buffer_medio.
    destruct (Z.ltb_spec (Z.of_nat (length pre)) (Int.add maxLen (-1))); [|lia].
    replace (pre ++ c :: post) with ((pre ++ [c]) ++ post)
      by (rewrite <- app_assoc; reflexivity).
    replace (S (length pre)) with (length (pre ++ [c]))
      by (rewrite length_app; cbn [length]; lia).
    rewrite IH; [ | lia | rewrite length_app; cbn [length]; lia | exact Hns ].
    rewrite length_app. cbn [length drop].
    rewrite <- !app_assoc. cbn [app]. f_equal. lia.
Qed.





Lemma leer_desde_lleno lecturas buffer posicion maxLen :
  (Int.add maxLen (-1) <= Z.of_nat posicion)%Z ->
  leer_desde lecturas buffer posicion maxLen
  = match escribir_buffer buffer posicion NUL with
    | Some buffer' => Leida (0 <? posicion)%nat buffer' lecturas
    | None => FueraDeRango
    end.
Proof.
  intros H.
  destruct lecturas; cbn [leer_desde];
    (destruct (Z.ltb_spec (Z.of_nat posicion) (Int.add maxLen (-1))); [lia | reflexivity]).
Qed.

Lemma limite maxLen :
  (1 <= maxLen <= Int.MAX)%Z -> Int.add maxLen (-1) = (maxLen - 1)%Z.
Proof.
  intros H. unfold Int.add. apply wrap_id.
  unfold Int.in_range, Int.MIN, Int.MAX in *. lia.
Qed.

(** The buffer once the text has been stored from its start. *)
Lemma leer_texto texto resto buffer maxLen :
  (1 <= maxLen <= Int.MAX)%Z ->
  (Z.of_nat (length texto) <= maxLen - 1)%Z ->
  (maxLen <= Z.of_nat (length buffer))%Z ->
  Forall (fun c => es_salto c = false) texto ->
  exists p,
    buffer !! length texto = Some p /\
    leerLineaSerial (map Some texto ++ resto) buffer maxLen
    = leer_desde resto (texto ++ p :: drop (S (length texto)) buffer)
        (length texto) maxLen.
Proof.
  intros HM Hlen Hbuf Hns.
  destruct (lookup_lt_is_Some_2 buffer (length texto) ltac:(lia)) as [p Hp].
  exists p. split; [exact Hp|].
  unfold leerLineaSerial.
  change (leer_desde (map Some texto ++ resto) buffer 0 maxLen)
    with (leer_desde (map Some texto ++ resto) ([] ++ buffer) (length (@nil ascii)) maxLen).
  rewrite (leer_desde_datos texto [] buffer resto maxLen);
    [ | lia | rewrite limite by exact HM; cbn [length]; lia | exact Hns ].
  cbn [app length Nat.add]. rewrite (drop_S _ _ _ Hp). reflexivity.
Qed.

(** X10.  A text of at least one and fewer than [maxLen - 1] bytes, none of
    them a line end, followed by a line end, is read back exactly: the
    result is [true], the buffer holds the text and its terminator, and the
    line end is consumed. *)
Theorem leerLineaSerial_linea
    (texto : list ascii) (salto : ascii) (resto : list (option ascii))
    (buffer : list ascii) (maxLen : Z) :
  (1 <= maxLen <= Int.MAX)%Z ->
  texto <> [] -> (Z.of_nat (length texto) < maxLen - 1)%Z ->
  Forall (fun c => es_salto c = false) texto ->
  es_salto salto = true ->
  (maxLen <= Z.of_nat (length buffer))%Z ->
  leerLineaSerial (map Some texto ++ Some salto :: resto) buffer maxLen
  = Leida true (texto ++ NUL :: drop (S (length texto)) buffer) resto.
Proof.
  intros HM Hne Hlen Hns Hsalto Hbuf.
  destruct (leer_texto texto (Some salto :: resto) buffer maxLen HM ltac:(lia) Hbuf Hns)
    as (p & _ & ->).
  cbn [leer_desde]. rewrite limite by exact HM.
  destruct (Z.ltb_spec (Z.of_nat (length texto)) (maxLen - 1)); [|lia].
  rewrite Hsalto.
  destruct (Nat.ltb_spec 0 (length texto)) as [_|H0];
    [|destruct texto; [congruence | cbn [length] in H0; lia]].
  rewrite escribir_buffer_medio. reflexivity.
Qed.

Lemma leerLineaSerial_linea_witness :
  leerLineaSerial (map Some ["M"; ","; "5"]%char ++ Some "013"%char :: [Some "010"%char])
    ["x"; "x"; "x"; "x"; "x"; "x"]%char 6
  = Leida true (["M"; ","; "5"]%char ++ NUL
                :: drop (S (length ["M"; ","; "5"]%char)) ["x"; "x"; "x"; "x"; "x"; "x"]%char)
      [Some "010"%char].
Proof.
  apply (leerLineaSerial_linea ["M"; ","; "5"]%char "013" [Some "010"%char]
           ["x"; "x"; "x"; "x"; "x"; "x"]%char 6).
  - unfold Int.MAX. lia.
  - discriminate.
  - cbn. lia.
  - repeat constructor.
  - reflexivity.
  - cbn. lia.
Defined.

(** X11.  A run of [maxLen - 1] bytes without a line end fills the buffer:
    [leerLineaSerial] returns [true] with those bytes and the terminator
    and consumes nothing more, so that whatever follows on the same line is
    read as the next line. *)
Theorem leerLineaSerial_llena
    (texto : list ascii) (resto : list (option ascii))
    (buffer : list ascii) (maxLen : Z) :
  (2 <= maxLen <= Int.MAX)%Z ->
  Z.of_nat (length texto) = (maxLen - 1)%Z ->
  Forall (fun c => es_salto c = false) texto ->
  (maxLen <= Z.of_nat (length buffer))%Z ->
  leerLineaSerial (map Some texto ++ resto) buffer maxLen
  = Leida true (texto ++ NUL :: drop (S (length texto)) buffer) resto.
Proof.
  intros HM Hlen Hns Hbuf.
  destruct (leer_texto texto resto buffer maxLen ltac:(lia) ltac:(lia) Hbuf Hns)
    as (p & _ & ->).
  rewrite leer_desde_lleno by (rewrite limite by lia; lia).
  rewrite escribir_buffer_medio.
  destruct (Nat.ltb_spec 0 (length texto)); [reflexivity | lia].
Qed.

Lemma leerLineaSerial_llena_witness :
  leerLineaSerial (map Some ["L"; ","; "A"]%char ++ [Some "B"%char; Some "010"%char])
    ["x"; "x"; "x"; "x"]%char 4
  = Leida true (["L"; ","; "A"]%char ++ NUL
                :: drop (S (length ["L"; ","; "A"]%char)) ["x"; "x"; "x"; "x"]%char)
      [Some "B"%char; Some "010"%char].
Proof.
  apply (leerLineaSerial_llena ["L"; ","; "A"]%char [Some "B"%char; Some "010"%char]
           ["x"; "x"; "x"; "x"]%char 4).
  - unfold Int.MAX. lia.
  - reflexivity.
  - repeat constructor.
  - cbn. lia.
Defined.

(** X12.  Before the first byte of a line, reads that give no byte and
    line ends are passed over: they change neither the result nor the
    buffer. *)
Theorem leerLineaSerial_salta_vacias
    (vacias lecturas : list (option ascii)) (buffer : list ascii) (maxLen : Z) :
  (2 <= maxLen <= Int.MAX)%Z ->
  Forall (fun x => lectura_vacia x = true) vacias ->
  leerLineaSerial (vacias ++ lecturas) buffer maxLen
  = leerLineaSerial lecturas buffer maxLen.
Proof.
  intros HM Hv. unfold leerLineaSerial.
  assert (Hlim : (0 < Int.add maxLen (-1))%Z) by (rewrite limite by lia; lia).
  induction Hv as [|x vacias Hx _ IH]; [reflexivity|].
  cbn [app]. destruct x as [c|].
  - rewrite leer_desde_salto_inicial by assumption. exact IH.
  - rewrite leer_desde_cons_None by exact Hlim. exact IH.
Qed.

Lemma leerLineaSerial_salta_vacias_witness :
  leerLineaSerial ([None; Some "013"; None; Some "010"]%char ++ [Some "L"%char])
    ["x"; "x"; "x"; "x"]%char 4
  = leerLineaSerial [Some "L"%char] ["x"; "x"; "x"; "x"]%char 4.
Proof.
  apply (leerLineaSerial_salta_vacias [None; Some "013"; None; Some "010"]%char).
  - unfold Int.MAX. lia.
  - repeat constructor.
Defined.

End Serial.

(** ** The main loop *)

Lemma parsearLinea_en_rango linea N :
  parsearLinea linea = Some (TramaMap N) -> Int.in_range N.
Proof.
  unfold parsearLinea.
  destruct (strlen linea <? 3)%nat; [discriminate|].
  destruct (negb _); [discriminate|].
  destruct (Ascii.eqb (char_at linea 0) "L"); [discriminate|].
  destruct (Ascii.eqb (char_at linea 0) "M"); [|discriminate].
  destruct (Ascii.eqb (char_at linea 2) "-");
    destruct (leer_digitos _ _ _) as [numero indice];
    destruct (_ || _); try discriminate;
    intros H; injection H as <-; apply wrap_in_range.
Qed.

(** One iteration from a well-formed session never fails, gives a
    well-formed session, and appends at most one character. *)
Lemma iteracion_bien_formada s linea cs :
  alcanzable (miRotorDeMapeo s) -> miListaDeCarga s = lista_de cs ->
  exists s' f cs',
    iteracion s linea = Some (s', f) /\
    alcanzable (miRotorDeMapeo s') /\
    miListaDeCarga s' = lista_de (cs ++ cs')%list /\
    length cs' <= 1.
Proof.
  intros Hr Hl. unfold iteracion.
  destruct (Ascii.eqb (char_at linea 0) NUL).
  { exists s, Continuar, []. rewrite app_nil_r. cbn [length]. auto. }
  destruct (Ascii.eqb (char_at linea 0) "I").
  { eexists _, Continuar, []. rewrite app_nil_r. cbn [length].
    split; [reflexivity|]. cbn [escribir miRotorDeMapeo miListaDeCarga]. auto. }
  destruct (_ && _).
  { eexists _, Romper, []. rewrite app_nil_r. cbn [length].
    split; [reflexivity|]. cbn [escribir miRotorDeMapeo miListaDeCarga]. auto. }
  destruct (parsearLinea linea) as [[c|N]|] eqn:Hp.
  - destruct (getMapeo_total _ c (alcanzable_bien_formado _ Hr)) as [d Hd].
    unfold procesar. cbn [escribir miRotorDeMapeo miListaDeCarga cout].
    rewrite Hd, Hl. cbn [mbind option_bind].
    rewrite insertar_lista_de. cbn [mbind option_bind].
    eexists _, Continuar, [d]. split; [reflexivity|].
    cbn [miRotorDeMapeo miListaDeCarga length]. auto.
  - pose proof (parsearLinea_en_rango _ _ Hp) as HN.
    destruct (rotar_bien_formado _ N (alcanzable_bien_formado _ Hr) HN)
      as (r' & Hrot & _).
    unfold procesar. cbn [escribir miRotorDeMapeo miListaDeCarga cout].
    rewrite Hrot. cbn [mbind option_bind].
    eexists _, Continuar, []. rewrite app_nil_r. split; [reflexivity|].
    cbn [miRotorDeMapeo miListaDeCarga length].
    split; [|auto].
    apply (alcanzable_paso (miRotorDeMapeo s) (OpRotar N)); assumption.
  - eexists _, Continuar, []. rewrite app_nil_r. cbn [length].
    split; [reflexivity|]. cbn [escribir miRotorDeMapeo miListaDeCarga]. auto.
Qed.

(** X13.  A line that starts with ["L,"] and has a third character, on a
    session with a reachable rotor and a payload list built by
    [insertarAlFinal]: whatever the character is and whatever follows it on
    the line, the loop goes on, the rotor is left as it was and the message
    grows by exactly what [getMapeo] gives for that character. *)
Theorem iteracion_carga (c : ascii) (resto : string) (s : Sesion) (cs : list ascii) :
  c <> NUL ->
  alcanzable (miRotorDeMapeo s) -> miListaDeCarga s = lista_de cs ->
  exists d s',
    RotorDeMapeo.getMapeo (miRotorDeMapeo s) c = Some d /\
    iteracion s (String "L" (String "," (String c resto))) = Some (s', Continuar) /\
    miRotorDeMapeo s' = miRotorDeMapeo s /\
    miListaDeCarga s' = lista_de (cs ++ [d])%list /\
    ListaDeCarga.mensaje (miListaDeCarga s')
    = Some (string_of_list_ascii (cs ++ [d])%list).
Proof.
  intros Hc Hr Hl.
  destruct (getMapeo_total _ c (alcanzable_bien_formado _ Hr)) as [d Hd].
  exists d. eexists. split; [exact Hd|].
  assert (Hp : parsearLinea (String "L" (String "," (String c resto)))
               = Some (TramaLoad c)).
  { unfold parsearLinea.
    rewrite strlen_tres;
      [reflexivity | reflexivity | reflexivity
       | destruct (Ascii.eqb_spec c NUL); [contradiction | reflexivity]]. }
  split.
  - unfold iteracion. rewrite Hp.
    change (char_at (String "L" _) 0) with "L"%char.
    cbn [Ascii.eqb Bool.eqb andb].
    unfold procesar. cbn [escribir miRotorDeMapeo miListaDeCarga cout].
    rewrite Hd, Hl. cbn [mbind option_bind].
    rewrite insertar_lista_de. reflexivity.
  - cbn [miRotorDeMapeo miListaDeCarga].
    split; [reflexivity|]. split; [reflexivity|]. apply mensaje_lista_de.
Qed.

Lemma iteracion_carga_witness :
  exists d s',
    RotorDeMapeo.getMapeo (RotorDeMapeo.mk anillo (Some 3)) "b" = Some d /\
    iteracion (mkSesion (lista_de ["X"%char]) (RotorDeMapeo.mk anillo (Some 3)) "")
      (String "L" (String "," (String "b" "cd"))) = Some (s', Continuar) /\
    miRotorDeMapeo s' = RotorDeMapeo.mk anillo (Some 3) /\
    miListaDeCarga s' = lista_de (["X"%char] ++ [d])%list /\
    ListaDeCarga.mensaje (miListaDeCarga s')
    = Some (string_of_list_ascii (["X"%char] ++ [d])%list).
Proof.
  apply (iteracion_carga "b" "cd"
           (mkSesion (lista_de ["X"%char]) (RotorDeMapeo.mk anillo (Some 3)) "")).
  - discriminate.
  - exact alcanzable_tres.
  - reflexivity.
Defined.

(** X14.  A rotation line whose signed value is an [int] other than the
    most negative one, on a session with a reachable rotor: the loop goes
    on, the payload list is left as it was and the head position moves by
    the value modulo 26; what follows the digits on the line is ignored. *)
Theorem iteracion_rotacion
    (negativo : bool) (digitos sufijo : string) (s : Sesion) :
  digitos <> "" -> todos_digitos digitos = true ->
  no_empieza_con_digito sufijo = true ->
  Int.in_range (valor_con_signo negativo digitos) ->
  valor_con_signo negativo digitos <> Int.MIN ->
  alcanzable (miRotorDeMapeo s) ->
  exists k s',
    posicion_cabeza (miRotorDeMapeo s) = Some k /\
    iteracion s (linea_M negativo digitos sufijo) = Some (s', Continuar) /\
    miListaDeCarga s' = miListaDeCarga s /\
    posicion_cabeza (miRotorDeMapeo s')
    = Some (Z.to_nat ((Z.of_nat k + valor_con_signo negativo digitos) mod 26)).
Proof.
  intros Hne Hds Hsuf HN Hmin Hr.
  destruct (alcanzable_bien_formado _ Hr) as [Hn (k & Hc & Hk)].
  exists k. eexists.
  split; [apply posicion_cabeza_anillo; assumption|].
  split.
  - unfold iteracion. rewrite parsear_M by assumption.
    rewrite wrap_id by exact HN.
    rewrite linea_M_cabeza.
    change (char_at (String "M" _) 0) with "M"%char.
    cbn [Ascii.eqb Bool.eqb andb].
    unfold procesar. cbn [escribir miRotorDeMapeo miListaDeCarga cout].
    rewrite (rotar_mueve _ k _ Hn Hc Hk HN Hmin). reflexivity.
  - cbn [miListaDeCarga miRotorDeMapeo]. split; [reflexivity|].
    pose proof (Z.mod_pos_bound (Z.of_nat k + valor_con_signo negativo digitos) 26
                  ltac:(lia)).
    apply posicion_cabeza_anillo; [reflexivity | reflexivity | lia].
Qed.

Lemma iteracion_rotacion_witness :
  exists k s',
    posicion_cabeza (RotorDeMapeo.mk anillo (Some 3)) = Some k /\
    iteracion (mkSesion ListaDeCarga.crear (RotorDeMapeo.mk anillo (Some 3)) "")
      (linea_M true "30" " etc") = Some (s', Continuar) /\
    miListaDeCarga s' = ListaDeCarga.crear /\
    posicion_cabeza (miRotorDeMapeo s')
    = Some (Z.to_nat ((Z.of_nat k + valor_con_signo true "30") mod 26)).
Proof.
  apply (iteracion_rotacion true "30" " etc"
           (mkSesion ListaDeCarga.crear (RotorDeMapeo.mk anillo (Some 3)) "")).
  - discriminate.
  - reflexivity.
  - reflexivity.
  - split; discriminate.
  - discriminate.
  - exact alcanzable_tres.
Defined.

(** The loop from a well-formed session never fails, gives a well-formed
    session, and appends at most one character per line. *)
Lemma bucle_bien_formado lineas : forall s cs,
  alcanzable (miRotorDeMapeo s) -> miListaDeCarga s = lista_de cs ->
  exists s' f cs',
    bucle lineas s = Some (s', f) /\
    alcanzable (miRotorDeMapeo s') /\
    miListaDeCarga s' = lista_de (cs ++ cs')%list /\
    length cs' <= length lineas.
Proof.
  induction lineas as [|linea lineas IH]; intros s cs Hr Hl.
  - exists s, Continuar, []. rewrite app_nil_r. cbn [bucle length]. auto.
  - destruct (iteracion_bien_formada s linea cs Hr Hl)
      as (s1 & f1 & cs1 & Hit & Hr1 & Hl1 & Hlen1).
    cbn [bucle]. rewrite Hit. cbn [mbind option_bind].
    destruct f1.
    + destruct (IH s1 _ Hr1 Hl1) as (s' & f & cs' & Hb & Hr' & Hl' & Hlen').
      exists s', f, (cs1 ++ cs')%list. rewrite app_assoc.
      repeat split; try assumption.
      rewrite length_app. cbn [length]. lia.
    + exists s1, Romper, cs1. cbn [length].
      repeat split; try assumption. lia.
Qed.

(** X15.  From a session with a reachable rotor and a payload list built
    by [insertarAlFinal], the main loop never fails on any sequence of
    lines: no null or dangling pointer is followed.  The state it reaches is
    of the same kind, and its message is the message before followed by at
    most one character per line: nothing already appended is changed or
    removed. *)
Theorem bucle_seguro (lineas : list string) (s : Sesion) (cs : list ascii) :
  alcanzable (miRotorDeMapeo s) -> miListaDeCarga s = lista_de cs ->
  exists s' f cs',
    bucle lineas s = Some (s', f) /\
    alcanzable (miRotorDeMapeo s') /\
    miListaDeCarga s' = lista_de (cs ++ cs')%list /\
    ListaDeCarga.mensaje (miListaDeCarga s) = Some (string_of_list_ascii cs) /\
    ListaDeCarga.mensaje (miListaDeCarga s')
    = Some (string_of_list_ascii (cs ++ cs')%list) /\
    length cs' <= length lineas.
Proof.
  intros Hr Hl.
  destruct (bucle_bien_formado lineas s cs Hr Hl)
    as (s' & f & cs' & Hb & Hr' & Hl' & Hlen').
  exists s', f, cs'.
  split; [exact Hb|]. split; [exact Hr'|]. split; [exact Hl'|].
  split; [rewrite Hl; apply mensaje_lista_de|].
  split; [rewrite Hl'; apply mensaje_lista_de | exact Hlen'].
Qed.

Lemma bucle_seguro_witness :
  exists s' f cs',
    bucle ["L,A"; "?"; "M,-1"; "L,A"]
      (mkSesion (lista_de ["X"%char]) (RotorDeMapeo.mk anillo (Some 3)) "") = Some (s', f) /\
    alcanzable (miRotorDeMapeo s') /\
    miListaDeCarga s' = lista_de (["X"%char] ++ cs')%list /\
    ListaDeCarga.mensaje (lista_de ["X"%char]) = Some (string_of_list_ascii ["X"%char]) /\
    ListaDeCarga.mensaje (miListaDeCarga s')
    = Some (string_of_list_ascii (["X"%char] ++ cs')%list) /\
    length cs' <= length ["L,A"; "?"; "M,-1"; "L,A"].
Proof.
  apply (bucle_seguro ["L,A"; "?"; "M,-1"; "L,A"]
           (mkSesion (lista_de ["X"%char]) (RotorDeMapeo.mk anillo (Some 3)) "")).
  - exact alcanzable_tres.
  - reflexivity.
Defined.

Lemma iteracion_fin s linea :
  es_fin linea = true ->
  iteracion s linea
  = Some (escribir s (endl ++ "--- Fin de transmision ---" ++ endl), Romper).
Proof.
  unfold es_fin, iteracion. intros H. rewrite H.
  apply andb_prop in H as [H _]. apply andb_prop in H as [H _].
  apply Ascii.eqb_eq in H. rewrite H. reflexivity.
Qed.

Lemma iteracion_no_fin s linea s' f :
  es_fin linea = false -> iteracion s linea = Some (s', f) -> f = Continuar.
Proof.
  unfold es_fin, iteracion. intros H.
  destruct (Ascii.eqb (char_at linea 0) NUL); [congruence|].
  destruct (Ascii.eqb (char_at linea 0) "I"); [congruence|].
  rewrite H.
  destruct (parsearLinea linea); [|congruence].
  destruct (procesar _ _ _) as [[[? ?] ?]|]; cbn [mbind option_bind]; congruence.
Qed.

(** X16.  The loop stops at the first line that starts with ["FIN"]: the
    lines after it are never read, and the result is the same whatever
    they are. *)
Theorem bucle_termina_en_fin (pre post : list string) (linea : string) (s : Sesion) :
  es_fin linea = true ->
  bucle (pre ++ linea :: post)%list s = bucle (pre ++ [linea])%list s.
Proof.
  intros Hfin. revert s. induction pre as [|x pre IH]; intros s.
  - cbn [app bucle]. rewrite iteracion_fin by exact Hfin. reflexivity.
  - cbn [app bucle]. destruct (iteracion s x) as [[s1 f1]|]; [|reflexivity].
    cbn [mbind option_bind]. destruct f1; [apply IH | reflexivity].
Qed.

Lemma bucle_termina_en_fin_witness :
  bucle (["L,A"] ++ "FINAL" :: ["L,B"; "M,3"])%list
    (mkSesion ListaDeCarga.crear (RotorDeMapeo.mk anillo (Some 0)) "")
  = bucle (["L,A"] ++ ["FINAL"])%list
      (mkSesion ListaDeCarga.crear (RotorDeMapeo.mk anillo (Some 0)) "").
Proof. apply (bucle_termina_en_fin ["L,A"] ["L,B"; "M,3"] "FINAL"). reflexivity. Defined.

Lemma bucle_sin_fin lineas : forall s s' f,
  Forall (fun l => es_fin l = false) lineas ->
  bucle lineas s = Some (s', f) -> f = Continuar.
Proof.
  induction lineas as [|linea lineas IH]; intros s s' f Hnf Hb.
  - cbn [bucle] in Hb. congruence.
  - apply Forall_cons in Hnf as [Hl Hnf]. cbn [bucle] in Hb.
    destruct (iteracion s linea) as [[s1 f1]|] eqn:Hit; [|discriminate].
    cbn [mbind option_bind] in Hb.
    rewrite (iteracion_no_fin _ _ _ _ Hl Hit) in Hb. eapply IH; eassumption.
Qed.

Lemma bucle_con_fin lineas : forall s s' f,
  Exists (fun l => es_fin l = true) lineas ->
  bucle lineas s = Some (s', f) -> f = Romper.
Proof.
  induction lineas as [|linea lineas IH]; intros s s' f Hex Hb.
  - inversion Hex.
  - cbn [bucle] in Hb.
    destruct (iteracion s linea) as [[s1 f1]|] eqn:Hit; [|discriminate].
    cbn [mbind option_bind] in Hb.
    destruct f1; [|congruence].
    destruct (es_fin linea) eqn:Hfin.
    + rewrite iteracion_fin in Hit by exact Hfin. congruence.
    + apply Exists_cons in Hex as [Hex|Hex]; [congruence|].
      eapply IH; eassumption.
Qed.

(** X17.  The session, from the structures [main] creates, ends normally
    and prints a final message exactly when one of the lines starts with
    ["FIN"]; otherwise the program is still waiting for a line when the
    lines end. *)
Theorem sesion_termina_sii_fin (lineas : list string) :
  (exists texto, sesion lineas = Some texto) <->
  Exists (fun l => es_fin l = true) lineas.
Proof.
  unfold sesion. rewrite crear_anillo. cbn [mbind option_bind].
  set (s0 := mkSesion ListaDeCarga.crear (RotorDeMapeo.mk anillo (Some 0)) "").
  assert (Hr0 : alcanzable (miRotorDeMapeo s0))
    by (apply alcanzable_crear, crear_anillo).
  destruct (bucle_bien_formado lineas s0 [] Hr0 eq_refl)
    as (s' & f & cs' & Hb & _ & Hl' & _).
  rewrite Hb. cbn [mbind option_bind].
  split.
  - intros [texto Ht].
    destruct (decide (Exists (fun l => es_fin l = true) lineas)) as [|Hno];
      [assumption|].
    exfalso. apply not_Exists_Forall in Hno; [|intros l; apply _].
    assert (Hnf : Forall (fun l => es_fin l = false) lineas).
    { eapply Forall_impl; [exact Hno|]. intros l Hl. cbn in Hl.
      destruct (es_fin l); congruence. }
    rewrite (bucle_sin_fin lineas s0 s' f Hnf Hb) in Ht. discriminate.
  - intros Hex.
    destruct f.
    + pose proof (bucle_con_fin lineas s0 s' Continuar Hex Hb). discriminate.
    + unfold ListaDeCarga.imprimirMensaje. rewrite Hl', mensaje_lista_de.
      cbn [mbind option_bind]. eauto.
Qed.

Lemma sesion_termina_sii_fin_witness :
  exists texto, sesion ["M,2"; "L,A"; "FIN"] = Some texto.
Proof.
  apply (proj2 (sesion_termina_sii_fin ["M,2"; "L,A"; "FIN"])).
  do 2 apply Exists_cons_tl. apply Exists_cons_hd. reflexivity.
Defined.

Lemma iteracion_misma_maquina s1 s2 linea :
  misma_maquina s1 s2 ->
  mismo_resultado (iteracion s1 linea) (iteracion s2 linea).
Proof.
  intros [Hl Hr]. unfold iteracion, mismo_resultado, misma_maquina.
  destruct (Ascii.eqb (char_at linea 0) NUL); [auto|].
  destruct (Ascii.eqb (char_at linea 0) "I"); [cbn; auto|].
  destruct (_ && _); [cbn; auto|].
  destruct (parsearLinea linea) as [trama|]; [|cbn; auto].
  cbn [escribir miListaDeCarga miRotorDeMapeo cout]. rewrite Hl, Hr.
  destruct (procesar trama (miListaDeCarga s2) (miRotorDeMapeo s2))
    as [[[carga rotor] texto]|]; cbn; auto.
Qed.

Lemma iteracion_sin_efecto s linea :
  sin_efecto linea = true ->
  exists s', iteracion s linea = Some (s', Continuar) /\ misma_maquina s' s.
Proof.
  unfold sin_efecto, es_fin, iteracion, misma_maquina. intros H.
  destruct (Ascii.eqb (char_at linea 0) NUL); [eauto|].
  destruct (Ascii.eqb (char_at linea 0) "I"); [cbn; eauto|].
  cbn [orb] in H. apply andb_prop in H as [Hfin Hp].
  apply negb_true_iff in Hfin. rewrite Hfin.
  destruct (parsearLinea linea); [discriminate|]. cbn. eauto.
Qed.

(** X18.  Empty lines, start markers and rejected frames have no effect on
    the decoding: taking them out of the input changes neither the payload
    list, nor the rotor, nor whether the loop ends. *)
Theorem bucle_ignora_sin_efecto (lineas : list string) (s1 s2 : Sesion) :
  misma_maquina s1 s2 ->
  mismo_resultado
    (bucle lineas s1)
    (bucle (List.filter (fun l => negb (sin_efecto l)) lineas) s2).
Proof.
  revert s1 s2. induction lineas as [|linea lineas IH]; intros s1 s2 Hm.
  - cbn. split; [exact Hm | reflexivity].
  - cbn [List.filter bucle].
    destruct (sin_efecto linea) eqn:Hse; cbn [negb].
    + destruct (iteracion_sin_efecto s1 linea Hse) as (s1' & -> & [Hl Hr]).
      cbn [mbind option_bind]. apply IH.
      destruct Hm as [Hl2 Hr2]. split; congruence.
    + cbn [bucle].
      pose proof (iteracion_misma_maquina s1 s2 linea Hm) as Hit.
      unfold mismo_resultado in Hit.
      destruct (iteracion s1 linea) as [[a f]|], (iteracion s2 linea) as [[b g]|];
        try contradiction; [|exact I].
      destruct Hit as [Hab <-]. cbn [mbind option_bind].
      destruct f; [apply IH, Hab | split; [exact Hab | reflexivity]].
Qed.

Lemma bucle_ignora_sin_efecto_witness :
  mismo_resultado
    (bucle ["I"; "L,A"; "X,5"; "M,"; "L,B"; "FIN"]
       (mkSesion ListaDeCarga.crear (RotorDeMapeo.mk anillo (Some 0)) ""))
    (bucle (List.filter (fun l => negb (sin_efecto l))
              ["I"; "L,A"; "X,5"; "M,"; "L,B"; "FIN"])
       (mkSesion ListaDeCarga.crear (RotorDeMapeo.mk anillo (Some 0)) "otro texto")).
Proof.
  apply (bucle_ignora_sin_efecto ["I"; "L,A"; "X,5"; "M,"; "L,B"; "FIN"]).
  split; reflexivity.
Defined.

(** ** The main loop on the serial port *)

Section BucleSerial.
Local Open Scope list_scope.








End BucleSerial.
